(** * Spiral chip-removal groove tool: geometry model, view fitting and
      the AutoCAD pass-through, embedded in Rocq.

    The C++ program computes with [double] and [int].  The embedding is
    written once, over an interface [DoubleOps] that names exactly the
    [double] operations the sources use (arithmetic, comparisons, [tan],
    [std::isnan], [std::isinf], the casts from and to [int]).  Every
    definition below follows one C++ function, statement by statement.

    Properties that only depend on the control flow are proved for every
    implementation of the interface.  Arithmetic identities are proved for
    the instance [xdouble]: IEEE-754 special values (infinities, NaN,
    division by zero) with exact, unrounded arithmetic on finite values.
    An [int] is an integer of [Z]; the cast from [double] keeps the [int]
    range. *)

From Stdlib Require Import Reals Lra Lia ZArith QArith Qreals List Bool.
From Stdlib Require Import Machin.
Import ListNotations.

Set Implicit Arguments.

(** ** The [double] interface *)

Class DoubleOps (D : Type) : Type := {
  d_lit   : Q -> D;            (* a floating literal of the source text *)
  d_add   : D -> D -> D;
  d_sub   : D -> D -> D;
  d_mul   : D -> D -> D;
  d_div   : D -> D -> D;
  d_neg   : D -> D;            (* unary minus *)
  d_lt    : D -> D -> bool;    (* a < b  *)
  d_le    : D -> D -> bool;    (* a <= b *)
  d_isnan : D -> bool;         (* std::isnan *)
  d_isinf : D -> bool;         (* std::isinf *)
  d_tan   : D -> D;            (* tan of <cmath> *)
  d_of_int : Z -> D;           (* (double)i, also the implicit promotion *)
  d_to_int : D -> Z            (* (int)x *)
}.

Declare Scope dbl_scope.
Delimit Scope dbl_scope with dbl.
Notation "a + b" := (d_add a b) : dbl_scope.
Notation "a - b" := (d_sub a b) : dbl_scope.
Notation "a * b" := (d_mul a b) : dbl_scope.
Notation "a / b" := (d_div a b) : dbl_scope.
Notation "- a" := (d_neg a) : dbl_scope.
Notation "a <? b" := (d_lt a b) : dbl_scope.
Notation "a <=? b" := (d_le a b) : dbl_scope.
Notation "a >? b" := (d_lt b a) : dbl_scope.
Notation "a >=? b" := (d_le b a) : dbl_scope.

(** ** SpiralCalculator.h / SpiralCalculator.cpp *)

Record Point2D (D : Type) : Type := mkPoint2D { x : D; y : D }.

Arguments mkPoint2D {D} _ _.
Arguments x {D} _.
Arguments y {D} _.

Section Calculator.
Context {D : Type} `{DoubleOps D}.
Local Open Scope dbl_scope.

(** [#define M_PI 3.14159265358979323846] *)
Definition M_PI : D :=
  d_lit (314159265358979323846 # 100000000000000000000).

(** [std::min] and [std::max] of <algorithm>, on [double]. *)
Definition std_min (a b : D) : D := if b <? a then b else a.
Definition std_max (a b : D) : D := if a <? b then b else a.

(** [for (int i = 0; i <= totalPoints; i++)]: the counter values.  (At
    [totalPoints = INT_MAX] the C++ counter itself would overflow; the
    model does not follow the program there.) *)
Definition loopCounters (totalPoints : Z) : list Z :=
  map Z.of_nat (seq 0 (S (Z.to_nat totalPoints))).

Definition CalculateSpiralGroove
    (spiralAngle drillDiameter totalLength bladeWidth bladeHeight : D)
    (pointsPerRevolution : Z) : list (Point2D D) :=
  let angleRad := spiralAngle * M_PI / d_lit 180 in
  let radius := drillDiameter / d_lit 2 in
  let circumference := d_lit 2 * M_PI * radius in
  let pitch := circumference / d_tan angleRad in
  let totalRevolutions := totalLength / pitch in
  let '(pitch, totalRevolutions) :=
    if (totalRevolutions <=? d_of_int 0) || d_isnan totalRevolutions
       || d_isinf totalRevolutions
    then (if totalLength >? d_of_int 0 then totalLength else d_lit 1,
          d_lit 1)
    else (pitch, totalRevolutions) in
  let totalPoints :=
    d_to_int (totalRevolutions * d_of_int pointsPerRevolution) in
  let totalPoints := if (totalPoints <? 10)%Z then 10%Z else totalPoints in
  map (fun i : Z =>
         let t := d_of_int i / d_of_int totalPoints in
         let x := t * totalLength in
         let y := (x / pitch) * circumference in
         mkPoint2D x y)
      (loopCounters totalPoints).

(** *** The locals of [CalculateSpiralGroove], one by one

    The statements below speak of the pitch, the revolutions and the
    point count of a run; these definitions name them, and
    [CalculateSpiralGroove_locals] shows that the function is built from
    them. *)

(** Lines 20-24 of [CalculateSpiralGroove]. *)
Definition grooveCircumference (drillDiameter : D) : D :=
  let radius := drillDiameter / d_lit 2 in
  d_lit 2 * M_PI * radius.

(** Line 28: [pitch] as first computed. *)
Definition grooveRawPitch (spiralAngle drillDiameter : D) : D :=
  let angleRad := spiralAngle * M_PI / d_lit 180 in
  let circumference := grooveCircumference drillDiameter in
  circumference / d_tan angleRad.

(** Line 31: [totalRevolutions] as first computed. *)
Definition grooveRawRevolutions
    (spiralAngle drillDiameter totalLength : D) : D :=
  totalLength / grooveRawPitch spiralAngle drillDiameter.

(** Line 32: the test that opens the degenerate branch. *)
Definition grooveDegenerate
    (spiralAngle drillDiameter totalLength : D) : bool :=
  let totalRevolutions :=
    grooveRawRevolutions spiralAngle drillDiameter totalLength in
  (totalRevolutions <=? d_of_int 0) || d_isnan totalRevolutions
  || d_isinf totalRevolutions.

(** Lines 20-40: the values of the locals [pitch] and
    [totalRevolutions] once the degenerate branch has run. *)
Definition groovePitchRevolutions
    (spiralAngle drillDiameter totalLength : D) : D * D :=
  let pitch := grooveRawPitch spiralAngle drillDiameter in
  let totalRevolutions :=
    grooveRawRevolutions spiralAngle drillDiameter totalLength in
  if grooveDegenerate spiralAngle drillDiameter totalLength
  then (if totalLength >? d_of_int 0 then totalLength else d_lit 1,
        d_lit 1)
  else (pitch, totalRevolutions).

Definition groovePitch (spiralAngle drillDiameter totalLength : D) : D :=
  fst (groovePitchRevolutions spiralAngle drillDiameter totalLength).

Definition grooveRevolutions
    (spiralAngle drillDiameter totalLength : D) : D :=
  snd (groovePitchRevolutions spiralAngle drillDiameter totalLength).

(** Lines 43-44: the local [totalPoints]. *)
Definition grooveTotalPoints
    (spiralAngle drillDiameter totalLength : D)
    (pointsPerRevolution : Z) : Z :=
  let totalRevolutions :=
    grooveRevolutions spiralAngle drillDiameter totalLength in
  let totalPoints :=
    d_to_int (totalRevolutions * d_of_int pointsPerRevolution) in
  if (totalPoints <? 10)%Z then 10%Z else totalPoints.

(** Lines 52-60: the body of the sampling loop, at counter [i]. *)
Definition groovePoint (totalLength pitch circumference : D)
    (totalPoints i : Z) : Point2D D :=
  let t := d_of_int i / d_of_int totalPoints in
  let x := t * totalLength in
  let y := (x / pitch) * circumference in
  mkPoint2D x y.

(** The default argument [pointsPerRevolution = 100] of the header. *)
Definition defaultPointsPerRevolution : Z := 100.

Definition CalculateBoundaries (centerPoints : list (Point2D D))
    (bladeWidth : D) : list (Point2D D * Point2D D) :=
  if (length centerPoints <? 2)%nat then []
  else
    let halfWidth := bladeWidth / d_lit 2 in
    map (fun center =>
           let left := mkPoint2D (x center) (y center + halfWidth) in
           let right := mkPoint2D (x center) (y center - halfWidth) in
           (left, right))
        centerPoints.

Definition CalculateToolOutline (drillDiameter totalLength : D)
    : list (Point2D D) :=
  let radius := drillDiameter / d_lit 2 in
  [ mkPoint2D (d_of_int 0) (- radius);
    mkPoint2D totalLength (- radius);
    mkPoint2D totalLength radius;
    mkPoint2D (d_of_int 0) radius;
    mkPoint2D (d_of_int 0) (- radius) ].

End Calculator.

(** ** AutoCADDrawer.cpp

    The COM automation server is outside the program; what its calls
    answer is an input of the model. *)

Record ComReplies : Type := {
  coInitializeEx_ok  : bool;  (* not (FAILED(hr) && hr != RPC_E_CHANGED_MODE) *)
  com_throws         : bool;  (* an exception reaches [catch (...)] *)
  getAutoCADApp_ok   : bool;  (* GetAutoCADApp(&pApp) *)
  queryInterface_ok  : bool;  (* SUCCEEDED(hr) && pDispatch *)
  safeArrayCreate_ok : bool   (* pArray != nullptr *)
}.

(** [IsAutoCADAvailable()] and the replies seen by the successive calls
    of [CreatePolylineWithAutoCAD], numbered from 0. *)
Record AutoCADWorld : Type := {
  IsAutoCADAvailable : bool;
  polylineCall : nat -> ComReplies
}.

Section AutoCADDrawer.
Context {P : Type}.   (* Point2D *)

(** Returns the [bool] result and the final content of the reference
    parameter [output], whose content at entry is [output]. *)
Definition CreatePolylineWithAutoCAD (com : ComReplies)
    (input output : list P) : bool * list P :=
  match input with
  | [] => (true, input)
  | _ :: _ =>
      if negb (coInitializeEx_ok com) then (false, output)
      else if com_throws com then (false, input)
      else if getAutoCADApp_ok com
        then if queryInterface_ok com
          then if safeArrayCreate_ok com
            then (true, input)      (* output = input; bSuccess = true *)
            else (false, output)
          else (false, output)
        else (false, output)
  end.

Definition GenerateWithAutoCADAPI (w : AutoCADWorld)
    (centerPoints : list P) (boundaries : list (P * P))
    (toolOutline : list P)
    : bool * (list P * list (P * P) * list P) :=
  if IsAutoCADAvailable w then
    let '(ok, optimizedCenter) :=
      CreatePolylineWithAutoCAD (polylineCall w 0) centerPoints [] in
    let centerPoints := if ok then optimizedCenter else centerPoints in
    let leftPoints := map fst boundaries in
    let rightPoints := map snd boundaries in
    let '(okL, optimizedLeft) :=
      CreatePolylineWithAutoCAD (polylineCall w 1) leftPoints [] in
    let leftPoints := if okL then optimizedLeft else leftPoints in
    let '(okR, optimizedRight) :=
      CreatePolylineWithAutoCAD (polylineCall w 2) rightPoints [] in
    let rightPoints := if okR then optimizedRight else rightPoints in
    (* boundaries.clear(); the first minSize pairs are pushed back *)
    let boundaries := combine leftPoints rightPoints in
    let '(okO, optimizedOutline) :=
      CreatePolylineWithAutoCAD (polylineCall w 3) toolOutline [] in
    let toolOutline := if okO then optimizedOutline else toolOutline in
    (true, (centerPoints, boundaries, toolOutline))
  else (false, (centerPoints, boundaries, toolOutline)).

End AutoCADDrawer.

(** ** MainWindow.h / MainWindow.cpp *)

(** The geometry and drawing members of [class MainWindow]. *)
Record MainWindow (D : Type) : Type := mkMainWindow {
  m_centerPoints : list (Point2D D);
  m_boundaries   : list (Point2D D * Point2D D);
  m_toolOutline  : list (Point2D D);
  m_scaleX  : D;
  m_scaleY  : D;
  m_offsetX : D;
  m_offsetY : D
}.

Arguments mkMainWindow {D} _ _ _ _ _ _ _.
Arguments m_centerPoints {D} _.
Arguments m_boundaries {D} _.
Arguments m_toolOutline {D} _.
Arguments m_scaleX {D} _.
Arguments m_scaleY {D} _.
Arguments m_offsetX {D} _.
Arguments m_offsetY {D} _.

(** [RECT] as filled by [GetClientRect]: [left = top = 0] and
    [right], [bottom] are the client size, so the [int] subtractions of
    [GenerateSpiral] stay far from the ends of the [int] range. *)
Record RECT : Type := mkRECT {
  rc_left : Z; rc_top : Z; rc_right : Z; rc_bottom : Z
}.

(** The user-visible calls the handlers make, in order. *)
Inductive UiCall : Type :=
| MessageBox_InvalidParameters   (* MB_OK | MB_ICONERROR *)
| MessageBox_GenerateFirst       (* MB_OK | MB_ICONINFORMATION *)
| SetWindowText_Info
| InvalidateRect_All
| UpdateWindow_Now.

(** The running bounds of the bounding-box loops. *)
Record Bounds (D : Type) : Type := mkBounds {
  minX : D; maxX : D; minY : D; maxY : D
}.

Arguments mkBounds {D} _ _ _ _.
Arguments minX {D} _.
Arguments maxX {D} _.
Arguments minY {D} _.
Arguments maxY {D} _.

Section MainWindowCode.
Context {D : Type} `{DoubleOps D}.
Local Open Scope dbl_scope.

(** The constructor's initial values. *)
Definition MainWindow_new : MainWindow D :=
  mkMainWindow [] [] [] (d_lit 1) (d_lit 1) (d_lit 0) (d_lit 0).

(** Body of the loops over [m_centerPoints] and [m_toolOutline]. *)
Definition boundsAddPoint (b : Bounds D) (pt : Point2D D) : Bounds D :=
  mkBounds (std_min (minX b) (x pt)) (std_max (maxX b) (x pt))
           (std_min (minY b) (y pt)) (std_max (maxY b) (y pt)).

(** Body of the loop over [m_boundaries]. *)
Definition boundsAddBoundary (b : Bounds D)
    (boundary : Point2D D * Point2D D) : Bounds D :=
  mkBounds
    (std_min (minX b) (std_min (x (fst boundary)) (x (snd boundary))))
    (std_max (maxX b) (std_max (x (fst boundary)) (x (snd boundary))))
    (std_min (minY b) (std_min (y (fst boundary)) (y (snd boundary))))
    (std_max (maxY b) (std_max (y (fst boundary)) (y (snd boundary)))).

(** Lines 170-198 of [GenerateSpiral], entered with a first centre
    point [p0]. *)
Definition geometryBounds (p0 : Point2D D) (w : MainWindow D) : Bounds D :=
  let b := mkBounds (x p0) (x p0) (y p0) (y p0) in
  let b := fold_left boundsAddPoint (m_centerPoints w) b in
  let b := fold_left boundsAddBoundary (m_boundaries w) b in
  fold_left boundsAddPoint (m_toolOutline w) b.

Definition clientWidth (rect : RECT) : Z :=
  (rc_right rect - rc_left rect - 250)%Z.
Definition clientHeight (rect : RECT) : Z :=
  (rc_bottom rect - rc_top rect - 20)%Z.

(** Lines 200-219 of [GenerateSpiral]: the view-fitting step. *)
Definition fitView (b : Bounds D) (rect : RECT) (w : MainWindow D)
    : MainWindow D :=
  let clientWidth := clientWidth rect in
  let clientHeight := clientHeight rect in
  let rangeX := maxX b - minX b in
  let rangeY := maxY b - minY b in
  if (rangeX >? d_of_int 0) && (rangeY >? d_of_int 0) then
    let scaleX := d_of_int clientWidth / rangeX * d_lit (85 # 100) in
    let scaleY := d_of_int clientHeight / rangeY * d_lit (85 # 100) in
    let scale := std_min scaleX scaleY in
    let scaleX := scale in
    let scaleY := scale in
    let offsetX :=
      d_of_int 250 + (d_of_int clientWidth - rangeX * scaleX) / d_of_int 2
      - minX b * scaleX in
    let offsetY :=
      d_of_int 10 + (d_of_int clientHeight - rangeY * scaleY) / d_of_int 2
      - minY b * scaleY in
    mkMainWindow (m_centerPoints w) (m_boundaries w) (m_toolOutline w)
                 scaleX scaleY offsetX offsetY
  else w.

(** [GenerateSpiral]; the five [_wtof] results and the client rectangle
    are its inputs. *)
Definition GenerateSpiral (w : MainWindow D)
    (spiralAngle drillDiameter totalLength bladeWidth bladeHeight : D)
    (rect : RECT) : MainWindow D * list UiCall :=
  if (spiralAngle <=? d_of_int 0) || (spiralAngle >=? d_of_int 90)
     || (drillDiameter <=? d_of_int 0) || (totalLength <=? d_of_int 0)
     || (bladeWidth <=? d_of_int 0) || (bladeHeight <=? d_of_int 0)
  then (w, [MessageBox_InvalidParameters])
  else
    let centerPoints :=
      CalculateSpiralGroove spiralAngle drillDiameter totalLength
        bladeWidth bladeHeight defaultPointsPerRevolution in
    let boundaries := CalculateBoundaries centerPoints bladeWidth in
    let toolOutline := CalculateToolOutline drillDiameter totalLength in
    let w := mkMainWindow centerPoints boundaries toolOutline
               (m_scaleX w) (m_scaleY w) (m_offsetX w) (m_offsetY w) in
    let w :=
      match m_centerPoints w with
      | [] => w
      | p0 :: _ => fitView (geometryBounds p0 w) rect w
      end in
    (w, [SetWindowText_Info; InvalidateRect_All]).

Definition DrawToAutoCAD (w : MainWindow D) (acad : AutoCADWorld)
    : MainWindow D * list UiCall :=
  match m_centerPoints w with
  | [] => (w, [MessageBox_GenerateFirst])
  | _ :: _ =>
      let '(_, (centerPoints, boundaries, toolOutline)) :=
        GenerateWithAutoCADAPI acad (m_centerPoints w) (m_boundaries w)
          (m_toolOutline w) in
      (mkMainWindow centerPoints boundaries toolOutline
         (m_scaleX w) (m_scaleY w) (m_offsetX w) (m_offsetY w),
       [InvalidateRect_All; UpdateWindow_Now])
  end.

(** [OnCommand] for [IDC_BUTTON_GENERATE]. *)
Definition OnCommand (w : MainWindow D)
    (spiralAngle drillDiameter totalLength bladeWidth bladeHeight : D)
    (rect : RECT) (acad : AutoCADWorld) : MainWindow D * list UiCall :=
  let '(w, calls1) :=
    GenerateSpiral w spiralAngle drillDiameter totalLength bladeWidth
      bladeHeight rect in
  let '(w, calls2) := DrawToAutoCAD w acad in
  (w, calls1 ++ calls2).

End MainWindowCode.

(** ** The exact-arithmetic instance

    [xdouble] keeps the special values of IEEE-754 and the rules that
    produce them, and computes exactly on finite values: no rounding, no
    overflow, one zero. *)

Inductive xdouble : Type :=
| Fin (r : R)
| PInf
| NInf
| NaN.

Definition Rleb (a b : R) : bool := if Rle_dec a b then true else false.
Definition Rltb (a b : R) : bool := if Rlt_dec a b then true else false.
Definition Reqb (a b : R) : bool := if Req_dec_T a b then true else false.

(** Truncation toward zero, the value of a [double] to [int] cast. *)
Definition Rtrunc (r : R) : Z :=
  if Rle_dec 0 r then Int_part r else (- Int_part (- r))%Z.

Definition INT_MIN : Z := (-2147483648)%Z.
Definition INT_MAX : Z := 2147483647%Z.

Module XD.

Definition neg (a : xdouble) : xdouble :=
  match a with
  | Fin r => Fin (- r)
  | PInf => NInf
  | NInf => PInf
  | NaN => NaN
  end.

Definition add (a b : xdouble) : xdouble :=
  match a, b with
  | NaN, _ | _, NaN => NaN
  | Fin r, Fin s => Fin (r + s)
  | PInf, NInf | NInf, PInf => NaN
  | PInf, _ | _, PInf => PInf
  | NInf, _ | _, NInf => NInf
  end.

Definition sub (a b : xdouble) : xdouble := add a (neg b).

(** An infinity multiplied or divided by the finite value [r]. *)
Definition scaleInf (inf : xdouble) (r : R) : xdouble :=
  if Reqb r 0 then NaN else if Rltb 0 r then inf else neg inf.

Definition mul (a b : xdouble) : xdouble :=
  match a, b with
  | NaN, _ | _, NaN => NaN
  | Fin r, Fin s => Fin (r * s)
  | Fin r, PInf | PInf, Fin r => scaleInf PInf r
  | Fin r, NInf | NInf, Fin r => scaleInf NInf r
  | PInf, PInf | NInf, NInf => PInf
  | PInf, NInf | NInf, PInf => NInf
  end.

Definition div (a b : xdouble) : xdouble :=
  match a, b with
  | NaN, _ | _, NaN => NaN
  | Fin r, Fin s =>
      if Reqb s 0
      then (if Reqb r 0 then NaN else if Rltb 0 r then PInf else NInf)
      else Fin (r / s)
  | Fin _, (PInf | NInf) => Fin 0
  | PInf, Fin s => if Rleb 0 s then PInf else NInf
  | NInf, Fin s => if Rleb 0 s then NInf else PInf
  | (PInf | NInf), (PInf | NInf) => NaN
  end.

Definition lt (a b : xdouble) : bool :=
  match a, b with
  | NaN, _ | _, NaN => false
  | Fin r, Fin s => Rltb r s
  | NInf, (Fin _ | PInf) => true
  | Fin _, PInf => true
  | _, _ => false
  end.

Definition le (a b : xdouble) : bool :=
  match a, b with
  | NaN, _ | _, NaN => false
  | Fin r, Fin s => Rleb r s
  | NInf, _ => true
  | _, PInf => true
  | _, _ => false
  end.

Definition isnan (a : xdouble) : bool :=
  match a with NaN => true | _ => false end.

Definition isinf (a : xdouble) : bool :=
  match a with PInf | NInf => true | _ => false end.

(** [tan]; the poles, which no [double] hits, give NaN. *)
Definition tan (a : xdouble) : xdouble :=
  match a with
  | Fin r => if Reqb (cos r) 0 then NaN else Fin (Rtrigo1.tan r)
  | _ => NaN
  end.

(** [(int)x]: truncation toward zero.  C++ leaves the cast undefined
    when the truncated value is no [int]; the conversion instruction of
    the program's x86 targets then yields [INT_MIN], which is what the
    model returns. *)
Definition to_int (a : xdouble) : Z :=
  match a with
  | Fin r =>
      let k := Rtrunc r in
      if ((INT_MIN <=? k) && (k <=? INT_MAX))%Z then k else INT_MIN
  | _ => INT_MIN
  end.

End XD.

#[export] Instance xdouble_ops : DoubleOps xdouble := {|
  d_lit q := Fin (Q2R q);
  d_add := XD.add;
  d_sub := XD.sub;
  d_mul := XD.mul;
  d_div := XD.div;
  d_neg := XD.neg;
  d_lt := XD.lt;
  d_le := XD.le;
  d_isnan := XD.isnan;
  d_isinf := XD.isinf;
  d_tan := XD.tan;
  d_of_int z := Fin (IZR z);
  d_to_int := XD.to_int
|}.

(** ** Real-valued readings of the locals of [CalculateSpiralGroove]

    For finite inputs that pass the validation of [GenerateSpiral] the
    locals are finite; these are their values (see
    [groovePitchRevolutions_valid]). *)

Definition M_PI_Q : Q := 314159265358979323846 # 100000000000000000000.
Definition M_PI_R : R := Q2R M_PI_Q.
Definition angleRadR (spiralAngle : R) : R := spiralAngle * M_PI_R / 180.
Definition circumferenceR (drillDiameter : R) : R :=
  2 * M_PI_R * (drillDiameter / 2).
Definition pitchR (spiralAngle drillDiameter : R) : R :=
  circumferenceR drillDiameter / tan (angleRadR spiralAngle).

(** The point sampled at counter [i] of [totalPoints = n] on such a run,
    for length [l], pitch [p] and circumference [c]. *)
Definition validPoint (l p c : R) (n i : Z) : Point2D xdouble :=
  mkPoint2D (Fin (IZR i / IZR n * l)) (Fin (IZR i / IZR n * l / p * c)).

(** Rational partial sums of the series behind the bounds on [PI],
    [sin] and [cos] of the standard library; they are evaluated to place
    [M_PI] below [PI] and to bracket [tan] at a given angle. *)

Fixpoint Qpow (q : Q) (n : nat) : Q :=
  match n with O => 1%Q | S k => (q * Qpow q k)%Q end.

Definition Q_of_nat (n : nat) : Q := inject_Z (Z.of_nat n).

Definition machin_term (k : nat) : Q :=
  (Qpow (-1) k
   * (2 * (Qpow (1 # 3) (2 * k + 1) / Q_of_nat (2 * k + 1))
      + Qpow (1 # 7) (2 * k + 1) / Q_of_nat (2 * k + 1)))%Q.

Definition sin_term_Q (a : Q) (k : nat) : Q :=
  (Qpow (-1) k * (Qpow a (2 * k + 1) / Q_of_nat (fact (2 * k + 1))))%Q.

Definition cos_term_Q (a : Q) (k : nat) : Q :=
  (Qpow (-1) k * (Qpow a (2 * k) / Q_of_nat (fact (2 * k))))%Q.

Fixpoint Qsum (f : nat -> Q) (n : nat) : Q :=
  match n with O => f O | S k => (Qsum f k + f (S k))%Q end.

(** ** What the specification says where it departs from the code *)

(** The words of the specification, not the code: [round], to the
    nearest integer with halves away from zero, of a non-negative
    value. *)
Definition spec_round (r : R) : Z := Int_part (r + / 2).

(** The words of the specification, not the code:
    "pointCount = round(revolutions * samplesPerRevolution), floored to a
    minimum of 10". *)
Definition spec_pointCount (revolutions : R) (samplesPerRevolution : Z) : Z :=
  Z.max 10 (spec_round (revolutions * IZR samplesPerRevolution)).

(** ** Predicates used by the statements *)

Section Shapes.
Context {D : Type} `{DoubleOps D}.

(** Consecutive points have strictly increasing [x]. *)
Fixpoint increasingX (l : list (Point2D D)) : Prop :=
  match l with
  | p :: (q :: _) as tl => d_lt (x p) (x q) = true /\ increasingX tl
  | _ => True
  end.

(** The [y]-extent of a centerline: [y] of the last point minus [y]
    of the first. *)
Definition yExtent (l : list (Point2D D)) : option D :=
  match l with
  | [] => None
  | p0 :: _ => Some (d_sub (y (last l p0)) (y p0))
  end.

End Shapes.

(** "Non-positive, NaN, or infinite". *)
Definition nonPositiveNaNOrInfinite (v : xdouble) : Prop :=
  match v with
  | Fin r => (r <= 0)%R
  | PInf | NInf | NaN => True
  end.

Definition finitePoint (p : Point2D xdouble) : Prop :=
  exists a b : R, p = mkPoint2D (Fin a) (Fin b).

(** [b] is finite and encloses the box [x0, x1] x [y0, y1]. *)
Definition encloses (b : Bounds xdouble) (x0 x1 y0 y1 : R) : Prop :=
  exists bx0 bx1 by0 by1 : R,
    b = mkBounds (Fin bx0) (Fin bx1) (Fin by0) (Fin by1)
    /\ (bx0 <= x0 /\ x1 <= bx1 /\ by0 <= y0 /\ y1 <= by1)%R.

Definition finitePair (b : Point2D xdouble * Point2D xdouble) : Prop :=
  finitePoint (fst b) /\ finitePoint (snd b).


(** ** AutoCADDrawer.cpp: the functions around the pass-through *)

(** What the COM calls of one [GetAutoCADApp] answer.  A pointer is
    [None] for [nullptr]. *)
Record AppReplies : Type := {
  clsidFromProgID_ok  : bool;        (* SUCCEEDED(CLSIDFromProgID) *)
  getActiveObject_ok  : bool;        (* SUCCEEDED(GetActiveObject) *)
  getActiveObject_ptr : option nat;  (* pUnknown after GetActiveObject *)
  coCreateInstance_ok : bool;        (* SUCCEEDED(CoCreateInstance) *)
  coCreateInstance_ptr : option nat  (* pUnknown after CoCreateInstance *)
}.

(** [GetAutoCADApp(void** ppApp)].  The argument is [None] for a null
    [ppApp], otherwise the content of the slot it points to; the result
    is the [bool] and the slot afterwards. *)
Definition GetAutoCADApp (r : AppReplies) (ppApp : option (option nat))
    : bool * option (option nat) :=
  match ppApp with
  | None => (false, None)
  | Some _ =>
      if negb (clsidFromProgID_ok r) then (false, Some None)
      else
        let '(hr_ok, pUnknown) :=
          if getActiveObject_ok r
          then (true, getActiveObject_ptr r)
          else (coCreateInstance_ok r, coCreateInstance_ptr r) in
        match pUnknown with
        | Some ptr => if hr_ok then (true, Some (Some ptr))
                      else (false, Some None)
        | None => (false, Some None)
        end
  end.

(** What the COM calls of one [SmoothPolylineWithAutoCAD] answer, in the
    order of the nested tests of the source.  The two last answers depend
    on the array of doubles handed to [AddPolyline]; [sm_coordinates] is
    [None] when the [Coordinates] call fails or its variant is no array of
    doubles, and otherwise the lower bound and the elements of the array
    it returns. *)
Record SmoothReplies (D : Type) : Type := {
  sm_coInitializeEx_ok  : bool;
  sm_throws             : bool;   (* an exception reaches [catch (...)] *)
  sm_getAutoCADApp_ok   : bool;
  sm_queryInterface_ok  : bool;
  sm_documents_id_ok    : bool;   (* GetIDsOfNames "Documents" *)
  sm_documents_ok       : bool;   (* Invoke, VT_DISPATCH *)
  sm_add_id_ok          : bool;   (* GetIDsOfNames "Add" *)
  sm_add_ok             : bool;
  sm_modelSpace_id_ok   : bool;   (* GetIDsOfNames "ModelSpace" *)
  sm_modelSpace_ok      : bool;
  sm_safeArrayCreate_ok : bool;
  sm_addPolyline_id_ok  : bool;   (* GetIDsOfNames "AddPolyline" *)
  sm_addPolyline_ok     : list D -> bool;
  sm_coordinates_id_ok  : bool;   (* GetIDsOfNames "Coordinates" *)
  sm_coordinates        : list D -> option (Z * list D)
}.

Arguments sm_coInitializeEx_ok {D} _.
Arguments sm_throws {D} _.
Arguments sm_getAutoCADApp_ok {D} _.
Arguments sm_queryInterface_ok {D} _.
Arguments sm_documents_id_ok {D} _.
Arguments sm_documents_ok {D} _.
Arguments sm_add_id_ok {D} _.
Arguments sm_add_ok {D} _.
Arguments sm_modelSpace_id_ok {D} _.
Arguments sm_modelSpace_ok {D} _.
Arguments sm_safeArrayCreate_ok {D} _.
Arguments sm_addPolyline_id_ok {D} _.
Arguments sm_addPolyline_ok {D} _ _.
Arguments sm_coordinates_id_ok {D} _.
Arguments sm_coordinates {D} _ _.

Section Smoothing.
Context {D : Type}.

(** The array filled by [pData[i * 2] = input[i].x;
    pData[i * 2 + 1] = input[i].y]. *)
Definition flattenPoints (input : list (Point2D D)) : list D :=
  flat_map (fun p => [x p; y p]) input.

(** [pResultData[i]]: the element at offset [i] of the accessed data;
    [None] outside the array. *)
Definition readAt (data : list D) (i : Z) : option D :=
  if (i <? 0)%Z then None else nth_error data (Z.to_nat i).

Fixpoint collectPairs (data : list D) (lBound : Z) (ks : list nat)
    : option (list (Point2D D)) :=
  match ks with
  | [] => Some []
  | k :: ks' =>
      match readAt data (lBound + 2 * Z.of_nat k)%Z,
            readAt data (lBound + 2 * Z.of_nat k + 1)%Z,
            collectPairs data lBound ks' with
      | Some a, Some b, Some rest => Some (mkPoint2D a b :: rest)
      | _, _, _ => None
      end
  end.

(** [for (long i = lBound; i <= uBound; i += 2) if (i + 1 <= uBound)
    output.push_back(Point2D(pResultData[i], pResultData[i + 1]))], with
    [uBound = lBound + length data - 1]: the counter takes the values
    [lBound + 2 * k] and a point is pushed for every [k < length data / 2].
    The result is [None] when a read leaves the array. *)
Definition coordinatePairs (lBound : Z) (data : list D)
    : option (list (Point2D D)) :=
  collectPairs data lBound (seq 0 (Nat.div (length data) 2)).

(** All the tests that enclose the [Coordinates] call succeed. *)
Definition smoothReachesCoordinates (r : SmoothReplies D) (points : list D)
    : bool :=
  sm_getAutoCADApp_ok r && sm_queryInterface_ok r
  && sm_documents_id_ok r && sm_documents_ok r
  && sm_add_id_ok r && sm_add_ok r
  && sm_modelSpace_id_ok r && sm_modelSpace_ok r
  && sm_safeArrayCreate_ok r
  && sm_addPolyline_id_ok r && sm_addPolyline_ok r points
  && sm_coordinates_id_ok r.

(** [SmoothPolylineWithAutoCAD]: the [bool] result and the final content
    of [output]; [None] when the decoding loop reads outside the returned
    array.  The exception of [sm_throws] is one raised by the COM part,
    before [output] is touched. *)
Definition SmoothPolylineWithAutoCAD (r : SmoothReplies D)
    (input output : list (Point2D D))
    : option (bool * list (Point2D D)) :=
  if (length input <? 2)%nat then Some (true, input)
  else if negb (sm_coInitializeEx_ok r) then Some (false, output)
  else if sm_throws r then Some (false, output)
  else if smoothReachesCoordinates r (flattenPoints input) then
    match sm_coordinates r (flattenPoints input) with
    | Some (lBound, data) =>
        match coordinatePairs lBound data with
        | Some points => Some (true, points)   (* bSuccess = true *)
        | None => None
        end
    | None => Some (true, input)               (* output = input *)
    end
  else Some (true, input).

Definition OptimizePointsWithAutoCAD (r : SmoothReplies D)
    (points : list (Point2D D)) : option (bool * list (Point2D D)) :=
  match SmoothPolylineWithAutoCAD r points [] with
  | Some (true, optimized) => Some (true, optimized)
  | Some (false, _) => Some (false, points)
  | None => None
  end.

(** [CreateHelixWithAutoCAD]: the result and [outputPoints]. *)
Definition CreateHelixWithAutoCAD
    (spiralAngle drillDiameter totalLength : D)
    (outputPoints : list (Point2D D)) : bool * list (Point2D D) :=
  (false, []).

End Smoothing.

(** ** MainWindow.cpp: [UpdateInfo] and [DrawGraphics] *)

(** The operands [UpdateInfo] streams into the text of the info label,
    in order; their rendering (std::fixed, setprecision(2)) is the
    library's. *)
Inductive InfoItem (D : Type) : Type :=
| Info_Title                    (* the heading line *)
| Info_PointCount (n : nat)     (* label << m_centerPoints.size() *)
| Info_XRange (first final : D) (* label << [0].x << " - " << back().x *)
| Info_YRange (first final : D) (* label << [0].y << " - " << back().y *).

Arguments Info_Title {D}.
Arguments Info_PointCount {D} _.
Arguments Info_XRange {D} _ _.
Arguments Info_YRange {D} _ _.

(** The pens of [DrawGraphics]. *)
Inductive Pen : Type :=
| outlinePen   (* Color(200, 200, 200), 1.0f *)
| leftPen      (* Color(255, 0, 0), 2.0f *)
| rightPen     (* Color(0, 0, 255), 2.0f *)
| centerPen.   (* Color(0, 255, 0), 1.0f *)

(** The GDI+ calls of [DrawGraphics], in order; a vertex is a [PointF]. *)
Inductive GdiCall (F : Type) : Type :=
| SetSmoothingMode_AntiAlias
| Clear_White
| DrawLines (pen : Pen) (points : list (F * F)).

Arguments SetSmoothingMode_AntiAlias {F}.
Arguments Clear_White {F}.
Arguments DrawLines {F} _ _.

Section Rendering.
Context {D : Type} `{DoubleOps D}.
Local Open Scope dbl_scope.

Definition UpdateInfo (w : MainWindow D) : list (InfoItem D) :=
  Info_Title :: Info_PointCount (length (m_centerPoints w)) ::
  match m_centerPoints w with
  | [] => []
  | p0 :: _ =>
      [ Info_XRange (x p0) (x (last (m_centerPoints w) p0));
        Info_YRange (y p0) (y (last (m_centerPoints w) p0)) ]
  end.

(** [pt.x * m_scaleX + m_offsetX] and [pt.y * m_scaleY + m_offsetY]: the
    drawing coordinates of a model point, before the cast to [float]. *)
Definition screenX (w : MainWindow D) (pt : Point2D D) : D :=
  x pt * m_scaleX w + m_offsetX w.
Definition screenY (w : MainWindow D) (pt : Point2D D) : D :=
  y pt * m_scaleY w + m_offsetY w.

Context {F : Type}.
Variable toFloat : D -> F.   (* the cast (float) *)

Definition toPointF (w : MainWindow D) (pt : Point2D D) : F * F :=
  (toFloat (screenX w pt), toFloat (screenY w pt)).

Definition DrawGraphics (w : MainWindow D) : list (GdiCall F) :=
  SetSmoothingMode_AntiAlias :: Clear_White ::
  match m_centerPoints w with
  | [] => []
  | _ :: _ =>
      (if (2 <=? length (m_toolOutline w))%nat
       then [DrawLines outlinePen (map (toPointF w) (m_toolOutline w))]
       else [])
      ++ (if (2 <=? length (m_boundaries w))%nat
          then [DrawLines leftPen
                  (map (fun b => toPointF w (fst b)) (m_boundaries w));
                DrawLines rightPen
                  (map (fun b => toPointF w (snd b)) (m_boundaries w))]
          else [])
      ++ (if (2 <=? length (m_centerPoints w))%nat
          then [DrawLines centerPen (map (toPointF w) (m_centerPoints w))]
          else [])
  end.

End Rendering.

(** ** Names used by the further properties *)

Section Submission.
Context {D : Type} `{DoubleOps D}.

(** The validation test of [GenerateSpiral]. *)
Definition rejects (a d l w h : D) : bool :=
  d_le a (d_of_int 0) || d_le (d_of_int 90) a
  || d_le d (d_of_int 0) || d_le l (d_of_int 0)
  || d_le w (d_of_int 0) || d_le h (d_of_int 0).

(** The window an accepted submission stores, before the fit. *)
Definition storedGeometry (win : MainWindow D) (a d l w h : D)
    : MainWindow D :=
  mkMainWindow
    (CalculateSpiralGroove a d l w h defaultPointsPerRevolution)
    (CalculateBoundaries
       (CalculateSpiralGroove a d l w h defaultPointsPerRevolution) w)
    (CalculateToolOutline d l)
    (m_scaleX win) (m_scaleY win) (m_offsetX win) (m_offsetY win).

End Submission.

(** [p] scaled by the factor [k], in the arithmetic of the program. *)
Definition scalePoint (k : xdouble) (p : Point2D xdouble) : Point2D xdouble :=
  mkPoint2D (d_mul k (x p)) (d_mul k (y p)).

(** [b] is finite and lies inside the box [x0, x1] x [y0, y1]. *)
Definition within (b : Bounds xdouble) (x0 x1 y0 y1 : R) : Prop :=
  exists bx0 bx1 by0 by1 : R,
    b = mkBounds (Fin bx0) (Fin bx1) (Fin by0) (Fin by1)
    /\ (x0 <= bx0 /\ bx1 <= x1 /\ y0 <= by0 /\ by1 <= y1)%R.

(** [p] is finite and lies inside the box. *)
Definition pointIn (x0 x1 y0 y1 : R) (p : Point2D xdouble) : Prop :=
  exists px py : R,
    p = mkPoint2D (Fin px) (Fin py)
    /\ (x0 <= px <= x1 /\ y0 <= py <= y1)%R.

(** The bounding box of a validated run, in [y]. *)
Definition boxLow (d w : R) : R := Rmin (- (w / 2)) (- (d / 2)).
Definition boxHigh (a d l w : R) : R :=
  Rmax (l * tan (angleRadR a) + w / 2) (d / 2).

(** The boundary pairs of a validated run, by loop counter. *)
Definition validPair (l p c w : R) (n i : Z)
    : Point2D xdouble * Point2D xdouble :=
  (mkPoint2D (Fin (IZR i / IZR n * l))
     (Fin (IZR i / IZR n * l / p * c + w / 2)),
   mkPoint2D (Fin (IZR i / IZR n * l))
     (Fin (IZR i / IZR n * l / p * c + - (w / 2)))).

(** The scale of a validated run. *)
Definition validScale (a d l w : R) (rect : RECT) : R :=
  Rmin (IZR (clientWidth rect) / (l - 0) * (85 / 100))
       (IZR (clientHeight rect) / (boxHigh a d l w - boxLow d w) * (85 / 100)).

(** Every stored point of a validated run. *)
Definition storedPoint (win : MainWindow xdouble) (q : Point2D xdouble)
    : Prop :=
  In q (m_centerPoints win)
  \/ In q (map fst (m_boundaries win))
  \/ In q (map snd (m_boundaries win))
  \/ In q (m_toolOutline win).


(** An AutoCAD that answers every call and returns, zero-based, the
    coordinates it was handed. *)
Definition echoReplies : SmoothReplies xdouble :=
  {| sm_coInitializeEx_ok := true; sm_throws := false;
     sm_getAutoCADApp_ok := true; sm_queryInterface_ok := true;
     sm_documents_id_ok := true; sm_documents_ok := true;
     sm_add_id_ok := true; sm_add_ok := true;
     sm_modelSpace_id_ok := true; sm_modelSpace_ok := true;
     sm_safeArrayCreate_ok := true; sm_addPolyline_id_ok := true;
     sm_addPolyline_ok := fun _ => true; sm_coordinates_id_ok := true;
     sm_coordinates := fun coordinates => Some (0%Z, coordinates) |}.

(** * Properties that hold for every [double] arithmetic *)

Section AnyArithmetic.
Context {D : Type} `{DoubleOps D}.

Lemma loopCounters_length (n : Z) :
  length (loopCounters n) = S (Z.to_nat n).
Proof. unfold loopCounters. now rewrite length_map, length_seq. Qed.

Lemma CalculateSpiralGroove_locals a d l w h (ppr : Z) :
  CalculateSpiralGroove a d l w h ppr
  = map (groovePoint l (groovePitch a d l) (grooveCircumference d)
           (grooveTotalPoints a d l ppr))
        (loopCounters (grooveTotalPoints a d l ppr)).
Proof.
  unfold CalculateSpiralGroove, grooveTotalPoints, grooveRevolutions,
    groovePitch, groovePitchRevolutions, grooveDegenerate,
    grooveRawRevolutions, grooveRawPitch, grooveCircumference, groovePoint.
  cbv zeta.
  destruct (d_le _ (d_of_int 0) || d_isnan _ || d_isinf _); reflexivity.
Qed.

Lemma CalculateSpiralGroove_length a d l w h (ppr : Z) :
  length (CalculateSpiralGroove a d l w h ppr)
  = S (Z.to_nat (grooveTotalPoints a d l ppr)).
Proof.
  rewrite CalculateSpiralGroove_locals.
  now rewrite length_map, loopCounters_length.
Qed.

Lemma grooveTotalPoints_ge_10 a d l (ppr : Z) :
  (10 <= grooveTotalPoints a d l ppr)%Z.
Proof.
  unfold grooveTotalPoints.
  destruct (Z.ltb_spec
    (d_to_int (d_mul (grooveRevolutions a d l) (d_of_int ppr))) 10); lia.
Qed.

(** C8. Two runs of [CalculateSpiralGroove] that differ only in
    [bladeHeight] return the same centerline, point for point: the
    parameter takes part in no computation.  In [GenerateSpiral] it is
    read by the validation alone, so two submissions that differ only in
    a [bladeHeight] accepted by that test store the same geometry and
    transform. *)
Theorem CalculateSpiralGroove_ignores_bladeHeight
    (spiralAngle drillDiameter totalLength bladeWidth : D)
    (bladeHeight1 bladeHeight2 : D) (pointsPerRevolution : Z)
    (win : MainWindow D) (rect : RECT) :
  CalculateSpiralGroove spiralAngle drillDiameter totalLength bladeWidth
    bladeHeight1 pointsPerRevolution
  = CalculateSpiralGroove spiralAngle drillDiameter totalLength bladeWidth
    bladeHeight2 pointsPerRevolution
  /\ (d_le bladeHeight1 (d_of_int 0) = d_le bladeHeight2 (d_of_int 0) ->
      GenerateSpiral win spiralAngle drillDiameter totalLength bladeWidth
        bladeHeight1 rect
      = GenerateSpiral win spiralAngle drillDiameter totalLength bladeWidth
        bladeHeight2 rect).
Proof.
  split; [reflexivity |].
  intros Htest. unfold GenerateSpiral. rewrite Htest.
  destruct (d_le spiralAngle (d_of_int 0) || d_le (d_of_int 90) spiralAngle
            || d_le drillDiameter (d_of_int 0)
            || d_le totalLength (d_of_int 0)
            || d_le bladeWidth (d_of_int 0)
            || d_le bladeHeight2 (d_of_int 0)); reflexivity.
Qed.

Lemma CalculateBoundaries_short (c : list (Point2D D)) (w : D) :
  (length c < 2)%nat -> CalculateBoundaries c w = [].
Proof.
  intros Hlt. unfold CalculateBoundaries.
  destruct (Nat.ltb_spec (length c) 2); [reflexivity | lia].
Qed.

Lemma CalculateBoundaries_length (c : list (Point2D D)) (w : D) :
  (2 <= length c)%nat -> length (CalculateBoundaries c w) = length c.
Proof.
  intros Hge. unfold CalculateBoundaries.
  destruct (Nat.ltb_spec (length c) 2); [lia | apply length_map].
Qed.

(** C9. With fewer than two centre points [CalculateBoundaries]
    returns the empty sequence; with two or more it returns as many
    pairs as there are centre points. *)
Theorem CalculateBoundaries_count (centerPoints : list (Point2D D))
    (bladeWidth : D) :
  ((length centerPoints < 2)%nat /\
     CalculateBoundaries centerPoints bladeWidth = [])
  \/ ((2 <= length centerPoints)%nat /\
      length (CalculateBoundaries centerPoints bladeWidth)
      = length centerPoints).
Proof.
  destruct (Nat.lt_ge_cases (length centerPoints) 2) as [Hlt | Hge].
  - left. split; [exact Hlt | now apply CalculateBoundaries_short].
  - right. split; [exact Hge | now apply CalculateBoundaries_length].
Qed.

Lemma CalculateBoundaries_nth (c : list (Point2D D)) (w : D) i p :
  (2 <= length c)%nat ->
  nth_error c i = Some p ->
  nth_error (CalculateBoundaries c w) i
  = Some (mkPoint2D (x p) (d_add (y p) (d_div w (d_lit 2))),
          mkPoint2D (x p) (d_sub (y p) (d_div w (d_lit 2)))).
Proof.
  intros Hlen Hnth. unfold CalculateBoundaries.
  destruct (Nat.ltb_spec (length c) 2) as [Hlt | _]; [lia |].
  rewrite nth_error_map, Hnth. reflexivity.
Qed.

End AnyArithmetic.

Section PassThrough.
Context {P : Type}.

Lemma CreatePolylineWithAutoCAD_cases (com : ComReplies)
    (input output : list P) :
  CreatePolylineWithAutoCAD com input output = (true, input)
  \/ fst (CreatePolylineWithAutoCAD com input output) = false.
Proof.
  unfold CreatePolylineWithAutoCAD.
  destruct input as [|p input]; [now left |].
  destruct (coInitializeEx_ok com), (com_throws com),
    (getAutoCADApp_ok com), (queryInterface_ok com),
    (safeArrayCreate_ok com); simpl; auto.
Qed.

(** What the callers of [CreatePolylineWithAutoCAD] do with it:
    [if (Create(v, opt)) v = opt;]. *)
Lemma refine_keeps (com : ComReplies) (v : list P) :
  (let '(ok, opt) := CreatePolylineWithAutoCAD com v [] in
   if ok then opt else v) = v.
Proof.
  destruct (CreatePolylineWithAutoCAD_cases com v []) as [E | E].
  - now rewrite E.
  - destruct (CreatePolylineWithAutoCAD com v []) as [ok opt].
    simpl in E. now subst ok.
Qed.

Lemma combine_fst_snd (A B : Type) (l : list (A * B)) :
  combine (map fst l) (map snd l) = l.
Proof.
  induction l as [|[a b] l IH]; simpl; [reflexivity | now rewrite IH].
Qed.

Lemma GenerateWithAutoCADAPI_keeps (w : AutoCADWorld)
    (centerPoints : list P) (boundaries : list (P * P))
    (toolOutline : list P) :
  GenerateWithAutoCADAPI w centerPoints boundaries toolOutline
  = (IsAutoCADAvailable w, (centerPoints, boundaries, toolOutline)).
Proof.
  unfold GenerateWithAutoCADAPI.
  destruct (IsAutoCADAvailable w); [| reflexivity].
  pose proof (refine_keeps (polylineCall w 0) centerPoints) as Hc.
  pose proof (refine_keeps (polylineCall w 1) (map fst boundaries)) as Hl.
  pose proof (refine_keeps (polylineCall w 2) (map snd boundaries)) as Hr.
  pose proof (refine_keeps (polylineCall w 3) toolOutline) as Ho.
  destruct (CreatePolylineWithAutoCAD (polylineCall w 0) centerPoints [])
    as [ok oc].
  destruct (CreatePolylineWithAutoCAD (polylineCall w 1)
              (map fst boundaries) []) as [okL ol].
  destruct (CreatePolylineWithAutoCAD (polylineCall w 2)
              (map snd boundaries) []) as [okR or].
  destruct (CreatePolylineWithAutoCAD (polylineCall w 3) toolOutline [])
    as [okO oo].
  rewrite Hc, Hl, Hr, Ho, combine_fst_snd. reflexivity.
Qed.

(** C10. The refinement pass changes no point.  A successful
    [CreatePolylineWithAutoCAD] leaves [output] equal to [input]; after
    a failed one the caller keeps its sequence; so
    [GenerateWithAutoCADAPI] hands back the centerline, the boundary
    pairs and the outline it was given, whatever the COM server
    answers, and returns whether AutoCAD is registered. *)
Theorem GenerateWithAutoCADAPI_identity (w : AutoCADWorld)
    (com : ComReplies) (input output : list P)
    (centerPoints : list P) (boundaries : list (P * P))
    (toolOutline : list P) :
  (CreatePolylineWithAutoCAD com input output = (true, input)
   \/ fst (CreatePolylineWithAutoCAD com input output) = false)
  /\ (let '(ok, optimized) :=
        CreatePolylineWithAutoCAD com input output in
      if ok then optimized else input) = input
  /\ GenerateWithAutoCADAPI w centerPoints boundaries toolOutline
     = (IsAutoCADAvailable w, (centerPoints, boundaries, toolOutline)).
Proof.
  split; [apply CreatePolylineWithAutoCAD_cases |].
  split; [| apply GenerateWithAutoCADAPI_keeps].
  destruct (CreatePolylineWithAutoCAD_cases com input output) as [E | E].
  - now rewrite E.
  - destruct (CreatePolylineWithAutoCAD com input output) as [ok opt].
    simpl in E. now subst ok.
Qed.

End PassThrough.

(** * The exact-arithmetic instance: basic facts *)

Local Open Scope R_scope.

Lemma Rleb_true a b : a <= b -> Rleb a b = true.
Proof. intros Hab. unfold Rleb. destruct (Rle_dec a b); [reflexivity | lra]. Qed.

Lemma Rleb_false a b : b < a -> Rleb a b = false.
Proof. intros Hab. unfold Rleb. destruct (Rle_dec a b); [lra | reflexivity]. Qed.

Lemma Rltb_true a b : a < b -> Rltb a b = true.
Proof. intros Hab. unfold Rltb. destruct (Rlt_dec a b); [reflexivity | lra]. Qed.

Lemma Rltb_false a b : b <= a -> Rltb a b = false.
Proof. intros Hab. unfold Rltb. destruct (Rlt_dec a b); [lra | reflexivity]. Qed.

Lemma Reqb_true a b : a = b -> Reqb a b = true.
Proof.
  intros Hab. unfold Reqb. destruct (Req_dec_T a b); [reflexivity | contradiction].
Qed.

Lemma Reqb_false a b : a <> b -> Reqb a b = false.
Proof.
  intros Hab. unfold Reqb. destruct (Req_dec_T a b); [contradiction | reflexivity].
Qed.

Lemma Rleb_spec a b : Rleb a b = true <-> a <= b.
Proof. unfold Rleb. destruct (Rle_dec a b); split; intros; try easy. Qed.

Lemma Rltb_spec a b : Rltb a b = true <-> a < b.
Proof. unfold Rltb. destruct (Rlt_dec a b); split; intros; try easy. Qed.

Lemma xd_div_fin r s : s <> 0 -> XD.div (Fin r) (Fin s) = Fin (r / s).
Proof. intros Hs. unfold XD.div. now rewrite Reqb_false. Qed.

Lemma xd_tan_fin r : cos r <> 0 -> XD.tan (Fin r) = Fin (tan r).
Proof. intros Hc. unfold XD.tan. now rewrite Reqb_false. Qed.

Lemma Q2R_int (z : Z) : Q2R (inject_Z z) = IZR z.
Proof. unfold Q2R. simpl. lra. Qed.

Lemma Q2R_1 : Q2R 1 = 1.
Proof. exact (Q2R_int 1). Qed.

Lemma Q2R_2 : Q2R 2 = 2.
Proof. exact (Q2R_int 2). Qed.

Lemma Q2R_3 : Q2R 3 = 3.
Proof. exact (Q2R_int 3). Qed.

Lemma Q2R_4 : Q2R 4 = 4.
Proof. exact (Q2R_int 4). Qed.

Lemma Q2R_180 : Q2R 180 = 180.
Proof. exact (Q2R_int 180). Qed.

Lemma Q2R_85_100 : Q2R (85 # 100) = 85 / 100.
Proof. unfold Q2R. simpl. lra. Qed.

(** ** [M_PI] lies below [PI] *)

Lemma Q2R_Qpow q n : Q2R (Qpow q n) = Q2R q ^ n.
Proof.
  induction n as [|n IH]; simpl.
  - exact Q2R_1.
  - now rewrite Q2R_mult, IH.
Qed.

Lemma Q2R_Q_of_nat n : Q2R (Q_of_nat n) = INR n.
Proof. unfold Q_of_nat. now rewrite Q2R_int, INR_IZR_INZ. Qed.

Lemma Q_of_nat_nonzero n : (0 < n)%nat -> ~ (Q_of_nat n == 0)%Q.
Proof. intros Hn. unfold Q_of_nat, Qeq. simpl. lia. Qed.

Lemma Q2R_Qsum (f : nat -> Q) (g : nat -> R) n :
  (forall k, Q2R (f k) = g k) -> Q2R (Qsum f n) = sum_f_R0 g n.
Proof.
  intros Hfg. induction n as [|n IH]; simpl.
  - apply Hfg.
  - now rewrite Q2R_plus, IH, Hfg.
Qed.

Lemma Q2R_m1 : Q2R (-1) = -1.
Proof. exact (Q2R_int (-1)). Qed.

Lemma Q2R_third : Q2R (1 # 3) = / 3.
Proof. unfold Q2R. simpl. lra. Qed.

Lemma Q2R_seventh : Q2R (1 # 7) = / 7.
Proof. unfold Q2R. simpl. lra. Qed.

Lemma machin_term_sound k : Q2R (machin_term k) = tg_alt PI_2_3_7_tg k.
Proof.
  unfold machin_term, tg_alt, PI_2_3_7_tg, Ratan_seq.
  assert (Hd : ~ (Q_of_nat (2 * k + 1) == 0)%Q) by (apply Q_of_nat_nonzero; lia).
  rewrite Q2R_mult, Q2R_plus, Q2R_mult, !Q2R_div by exact Hd.
  now rewrite !Q2R_Qpow, Q2R_Q_of_nat, Q2R_m1, Q2R_2, Q2R_third, Q2R_seventh.
Qed.

Lemma M_PI_lt_PI : M_PI_R < PI.
Proof.
  destruct (PI_2_3_7_ineq 12) as [Hlow _].
  rewrite <- (Q2R_Qsum machin_term _ _ machin_term_sound) in Hlow.
  assert (Hq : (M_PI_Q < 4 * Qsum machin_term (S (2 * 12)))%Q)
    by (vm_compute; reflexivity).
  apply Qlt_Rlt in Hq. rewrite Q2R_mult, Q2R_4 in Hq.
  unfold M_PI_R. lra.
Qed.

Lemma M_PI_gt_3 : 3 < M_PI_R.
Proof.
  assert (Hq : (3 < M_PI_Q)%Q) by (vm_compute; reflexivity).
  apply Qlt_Rlt in Hq. rewrite Q2R_3 in Hq. exact Hq.
Qed.

Lemma angleRadR_range a :
  0 < a < 90 -> 0 < angleRadR a < PI / 2.
Proof.
  intros [H0 H90]. unfold angleRadR.
  pose proof M_PI_lt_PI. pose proof M_PI_gt_3. split; nra.
Qed.

Lemma tan_angleRadR_pos a : 0 < a < 90 -> 0 < tan (angleRadR a).
Proof. intros Ha. apply tan_gt_0; apply angleRadR_range; exact Ha. Qed.

Lemma circumferenceR_pos d : 0 < d -> 0 < circumferenceR d.
Proof. intros Hd. unfold circumferenceR. pose proof M_PI_gt_3. nra. Qed.

Lemma pitchR_pos a d : 0 < a < 90 -> 0 < d -> 0 < pitchR a d.
Proof.
  intros Ha Hd. unfold pitchR.
  apply Rdiv_lt_0_compat; [now apply circumferenceR_pos | now apply tan_angleRadR_pos].
Qed.

(** ** [CalculateSpiralGroove] on validated inputs *)

Ltac xd_ops :=
  cbn [d_lit d_add d_sub d_mul d_div d_neg d_lt d_le d_isnan d_isinf d_tan
       d_of_int d_to_int xdouble_ops].

Lemma xd_M_PI : @M_PI xdouble _ = Fin M_PI_R.
Proof. reflexivity. Qed.

Lemma xd_grooveCircumference d :
  grooveCircumference (Fin d) = Fin (circumferenceR d).
Proof.
  unfold grooveCircumference, circumferenceR. rewrite xd_M_PI. xd_ops.
  rewrite xd_div_fin by (rewrite Q2R_2; lra).
  rewrite Q2R_2. reflexivity.
Qed.

Lemma groovePitchRevolutions_valid a d l :
  0 < a < 90 -> 0 < d -> 0 < l ->
  groovePitchRevolutions (Fin a) (Fin d) (Fin l)
  = (Fin (pitchR a d), Fin (l / pitchR a d)).
Proof.
  intros Ha Hd Hl.
  pose proof (tan_angleRadR_pos Ha) as Htan.
  pose proof (pitchR_pos Ha Hd) as Hp.
  assert (Hcos : cos (angleRadR a) <> 0).
  { pose proof (angleRadR_range Ha). apply Rgt_not_eq, cos_gt_0; lra. }
  unfold groovePitchRevolutions, grooveDegenerate, grooveRawRevolutions,
    grooveRawPitch.
  rewrite xd_grooveCircumference, xd_M_PI.
  xd_ops. cbn [XD.mul].
  rewrite (xd_div_fin (a * M_PI_R)) by (rewrite Q2R_180; lra).
  rewrite Q2R_180. fold (angleRadR a). rewrite xd_tan_fin by exact Hcos.
  rewrite xd_div_fin by lra. fold (pitchR a d).
  rewrite xd_div_fin by lra.
  cbn [XD.le XD.isnan XD.isinf].
  rewrite Rleb_false; [reflexivity |].
  apply Rdiv_lt_0_compat; lra.
Qed.

Lemma groovePoint_fin l p c n i :
  n <> 0%Z -> p <> 0 ->
  groovePoint (Fin l) (Fin p) (Fin c) n i = validPoint l p c n i.
Proof.
  intros Hn Hp. unfold groovePoint, validPoint. xd_ops.
  rewrite xd_div_fin by (now apply not_0_IZR).
  cbn [XD.mul]. rewrite xd_div_fin by exact Hp. reflexivity.
Qed.

Lemma CalculateSpiralGroove_valid a d l w h ppr :
  0 < a < 90 -> 0 < d -> 0 < l ->
  CalculateSpiralGroove (Fin a) (Fin d) (Fin l) w h ppr
  = map (validPoint l (pitchR a d) (circumferenceR d)
           (grooveTotalPoints (Fin a) (Fin d) (Fin l) ppr))
        (loopCounters (grooveTotalPoints (Fin a) (Fin d) (Fin l) ppr)).
Proof.
  intros Ha Hd Hl. rewrite CalculateSpiralGroove_locals.
  pose proof (grooveTotalPoints_ge_10 (Fin a) (Fin d) (Fin l) ppr) as Hn.
  pose proof (pitchR_pos Ha Hd) as Hp.
  unfold groovePitch. rewrite groovePitchRevolutions_valid by assumption.
  rewrite xd_grooveCircumference. cbn [fst].
  apply map_ext. intros i. apply groovePoint_fin; [lia | lra].
Qed.

Lemma increasingX_validPoints l p c n k s :
  0 < l -> (0 < n)%Z ->
  increasingX (map (validPoint l p c n) (map Z.of_nat (seq s k))).
Proof.
  intros Hl Hn. revert s. induction k as [|k IH]; intros s; [exact I |].
  destruct k as [|k]; [exact I |].
  specialize (IH (S s)). 
  change (increasingX (validPoint l p c n (Z.of_nat s) :: map (validPoint l p c n) (map Z.of_nat (seq (S s) (S k))))).
  cbn [seq map] in IH |- *. cbn [increasingX]. split; [| exact IH].
  unfold validPoint. cbn [x]. xd_ops. cbn [XD.lt]. apply Rltb_true.
  assert (Hn' : 0 < IZR n) by (now apply IZR_lt).
  assert (Hs : IZR (Z.of_nat s) < IZR (Z.of_nat (S s))) by (apply IZR_lt; lia).
  apply Rmult_lt_compat_r; [exact Hl |].
  apply Rmult_lt_compat_r; [now apply Rinv_0_lt_compat | exact Hs].
Qed.




(** ** The sample-interval count *)

Lemma Rtrunc_nonneg v :
  0 <= v -> IZR (Rtrunc v) <= v < IZR (Rtrunc v) + 1.
Proof.
  intros Hv. unfold Rtrunc. destruct (Rle_dec 0 v) as [_ | Hn]; [| lra].
  destruct (base_Int_part v) as [H1 H2]. lra.
Qed.

Lemma Rtrunc_nonpos v :
  v <= 0 -> IZR (Rtrunc v) - 1 < v <= IZR (Rtrunc v).
Proof.
  intros Hv. unfold Rtrunc. destruct (Rle_dec 0 v) as [H0 | Hn].
  - assert (v = 0) by lra. subst v.
    replace (Int_part 0) with 0%Z by (apply Int_part_spec; lra). lra.
  - rewrite opp_IZR. destruct (base_Int_part (- v)) as [H1 H2]. lra.
Qed.

Lemma Rtrunc_unique v (k : Z) :
  IZR k <= v < IZR k + 1 -> 0 <= v -> Rtrunc v = k.
Proof.
  intros Hk Hv. unfold Rtrunc. destruct (Rle_dec 0 v) as [_ | Hn]; [| lra].
  symmetry. apply Int_part_spec. lra.
Qed.

Lemma grooveRevolutions_finite (a d l : xdouble) :
  exists r : R, 0 < r /\ grooveRevolutions a d l = Fin r.
Proof.
  unfold grooveRevolutions, groovePitchRevolutions, grooveDegenerate.
  set (rev := grooveRawRevolutions a d l).
  destruct (d_le rev (d_of_int 0) || d_isnan rev || d_isinf rev) eqn:E.
  - exists 1. split; [lra |]. cbn [snd]. xd_ops. now rewrite Q2R_1.
  - apply orb_false_elim in E. destruct E as [E Einf].
    apply orb_false_elim in E. destruct E as [Ele Enan].
    destruct rev as [r | | |]; try discriminate.
    exists r. split; [| reflexivity].
    revert Ele. xd_ops. cbn [XD.le]. unfold Rleb.
    destruct (Rle_dec r 0); [discriminate | intros _; lra].
Qed.


(** ** Brackets of [tan] at a rational angle *)

Lemma sin_term_Q_sound q k : Q2R (sin_term_Q q k) = sin_term (Q2R q) k.
Proof.
  unfold sin_term_Q, sin_term.
  rewrite Q2R_mult, Q2R_div by (apply Q_of_nat_nonzero, lt_O_fact).
  now rewrite !Q2R_Qpow, Q2R_Q_of_nat, Q2R_m1.
Qed.

Lemma cos_term_Q_sound q k : Q2R (cos_term_Q q k) = cos_term (Q2R q) k.
Proof.
  unfold cos_term_Q, cos_term.
  rewrite Q2R_mult, Q2R_div by (apply Q_of_nat_nonzero, lt_O_fact).
  now rewrite !Q2R_Qpow, Q2R_Q_of_nat, Q2R_m1.
Qed.

(** Rational brackets of [sin] and [cos] at a rational angle of the
    first quadrant. *)
Lemma sin_cos_bracket (q : Q) :
  0 <= Q2R q <= 3 / 2 ->
  Q2R (Qsum (sin_term_Q q) 3) <= sin (Q2R q) <= Q2R (Qsum (sin_term_Q q) 4)
  /\ Q2R (Qsum (cos_term_Q q) 3) <= cos (Q2R q) <= Q2R (Qsum (cos_term_Q q) 4).
Proof.
  intros [H0 H1]. pose proof PI2_3_2 as Hpi.
  rewrite !(Q2R_Qsum (sin_term_Q q) _ _ (sin_term_Q_sound q)).
  rewrite !(Q2R_Qsum (cos_term_Q q) _ _ (cos_term_Q_sound q)).
  split.
  - apply SIN; lra.
  - apply COS; lra.
Qed.

Lemma tan_bracket (q lo hi : Q) :
  0 <= Q2R q <= 3 / 2 ->
  (0 < Qsum (cos_term_Q q) 3)%Q ->
  (lo * Qsum (cos_term_Q q) 4 <= Qsum (sin_term_Q q) 3)%Q ->
  (Qsum (sin_term_Q q) 4 < hi * Qsum (cos_term_Q q) 3)%Q ->
  (0 <= lo)%Q -> (0 <= hi)%Q ->
  Q2R lo <= tan (Q2R q) < Q2R hi.
Proof.
  intros Hq Hc Hlo Hhi Hlo0 Hhi0.
  destruct (sin_cos_bracket Hq) as [[Hs1 Hs2] [Hc1 Hc2]].
  apply Qlt_Rlt in Hc, Hhi. apply Qle_Rle in Hlo, Hlo0, Hhi0.
  rewrite Q2R_mult in Hlo, Hhi.
  replace (Q2R 0) with 0 in * by (symmetry; exact (Q2R_int 0)).
  set (s := sin (Q2R q)) in *. set (c := cos (Q2R q)) in *.
  assert (Hcpos : 0 < c) by lra.
  unfold tan. fold s c. split.
  - apply Rmult_le_reg_r with c; [exact Hcpos |].
    unfold Rdiv. rewrite Rmult_assoc, Rinv_l by lra. nra.
  - apply Rmult_lt_reg_r with c; [exact Hcpos |].
    unfold Rdiv. rewrite Rmult_assoc, Rinv_l by lra. nra.
Qed.

Lemma angleRadR_30 : angleRadR 30 = Q2R (M_PI_Q * (1 # 6)).
Proof.
  unfold angleRadR, M_PI_R. rewrite Q2R_mult.
  replace (Q2R (1 # 6)) with (/ 6) by (unfold Q2R; simpl; lra). lra.
Qed.

Lemma tan_30 : 575 / 1000 <= tan (angleRadR 30) < 578 / 1000.
Proof.
  rewrite angleRadR_30.
  replace (575 / 1000) with (Q2R (575 # 1000)) by (unfold Q2R; simpl; lra).
  replace (578 / 1000) with (Q2R (578 # 1000)) by (unfold Q2R; simpl; lra).
  apply tan_bracket; try (vm_compute; reflexivity); try (vm_compute; discriminate).
  rewrite <- angleRadR_30. unfold angleRadR.
  pose proof M_PI_gt_3. pose proof M_PI_lt_PI. pose proof PI_4. lra.
Qed.

Lemma M_PI_R_bracket : 31415 / 10000 < M_PI_R < 31416 / 10000.
Proof.
  assert (H1 : (31415 # 10000 < M_PI_Q)%Q) by (vm_compute; reflexivity).
  assert (H2 : (M_PI_Q < 31416 # 10000)%Q) by (vm_compute; reflexivity).
  apply Qlt_Rlt in H1, H2. unfold M_PI_R.
  replace (Q2R (31415 # 10000)) with (31415 / 10000) in H1 by (unfold Q2R; simpl; lra).
  replace (Q2R (31416 # 10000)) with (31416 / 10000) in H2 by (unfold Q2R; simpl; lra).
  lra.
Qed.

(** The example scenario of the specification: 30 degrees, diameter 10,
    length 50. *)
Lemma example_revolutions :
  915 / 10 <= 50 / pitchR 30 10 * 100 < 92.
Proof.
  pose proof tan_30 as [Hlo Hhi]. pose proof M_PI_R_bracket as [Hm1 Hm2].
  unfold pitchR, circumferenceR.
  set (t := tan (angleRadR 30)) in *.
  assert (Ht : 0 < t) by lra.
  replace (50 / (2 * M_PI_R * (10 / 2) / t) * 100) with (500 * t / M_PI_R)
    by (field; lra).
  split.
  - apply Rmult_le_reg_r with M_PI_R; [lra |].
    replace (500 * t / M_PI_R * M_PI_R) with (500 * t) by (field; lra). lra.
  - apply Rmult_lt_reg_r with M_PI_R; [lra |].
    replace (500 * t / M_PI_R * M_PI_R) with (500 * t) by (field; lra). lra.
Qed.

Lemma example_totalPoints :
  grooveTotalPoints (Fin 30) (Fin 10) (Fin 50) 100 = 91%Z.
Proof.
  unfold grooveTotalPoints, grooveRevolutions.
  rewrite groovePitchRevolutions_valid by lra. cbn [snd]. xd_ops.
  cbn [XD.mul XD.to_int].
  pose proof example_revolutions as [H1 H2].
  rewrite (@Rtrunc_unique _ 91) by lra. reflexivity.
Qed.


(** ** The degenerate branch *)

Lemma Rtrunc_IZR (z : Z) : Rtrunc (IZR z) = z.
Proof.
  unfold Rtrunc. destruct (Rle_dec 0 (IZR z)) as [Hz | Hz].
  - symmetry. apply Int_part_spec. lra.
  - rewrite <- opp_IZR.
    replace (Int_part (IZR (- z))) with (- z)%Z by (apply Int_part_spec; lra).
    lia.
Qed.

Lemma groovePitchRevolutions_degenerate {D} `{DoubleOps D} (a d l : D) :
  grooveDegenerate a d l = true ->
  groovePitchRevolutions a d l
  = (if d_lt (d_of_int 0) l then l else d_lit 1, d_lit 1).
Proof. intros Hdeg. unfold groovePitchRevolutions. now rewrite Hdeg. Qed.

Lemma xd_mul_one_l (c : xdouble) (u : R) : u = 1 -> XD.mul (Fin u) c = c.
Proof.
  intros ->. destruct c as [r | | |]; cbn [XD.mul]; try reflexivity.
  - f_equal. lra.
  - unfold XD.scaleInf. rewrite Reqb_false, Rltb_true by lra. reflexivity.
  - unfold XD.scaleInf. rewrite Reqb_false, Rltb_true by lra. reflexivity.
Qed.

Lemma grooveDegenerate_spec (a d l : xdouble) :
  nonPositiveNaNOrInfinite (grooveRawRevolutions a d l)
  <-> grooveDegenerate a d l = true.
Proof.
  unfold grooveDegenerate, nonPositiveNaNOrInfinite.
  destruct (grooveRawRevolutions a d l) as [r | | |]; xd_ops;
    cbn [XD.le XD.isnan XD.isinf orb]; try (split; [reflexivity | exact (fun _ => I)]).
  rewrite orb_false_r, orb_false_r. apply iff_sym, Rleb_spec.
Qed.

Lemma grooveTotalPoints_degenerate (a d l : xdouble) (ppr : Z) :
  grooveDegenerate a d l = true ->
  (INT_MIN <= ppr <= INT_MAX)%Z ->
  grooveTotalPoints a d l ppr = Z.max 10 ppr.
Proof.
  intros Hdeg Hppr.
  unfold grooveTotalPoints, grooveRevolutions.
  rewrite (groovePitchRevolutions_degenerate a d l Hdeg). cbn [snd]. xd_ops.
  cbn [XD.mul XD.to_int]. rewrite Q2R_1, Rmult_1_l, Rtrunc_IZR.
  unfold INT_MIN, INT_MAX in *.
  destruct (Z.leb_spec (-2147483648) ppr); [| lia].
  destruct (Z.leb_spec ppr 2147483647); [| lia].
  cbn [andb]. destruct (Z.ltb_spec ppr 10); lia.
Qed.

(** C2 (as the code has it). Whenever [totalLength / pitch] is
    non-positive, NaN or infinite, the function continues with one
    revolution and with [pitch = totalLength] (or 1.0 when [totalLength]
    is not positive).  The sample-interval count is then the larger of 10
    and [pointsPerRevolution] (100 by default), not the floor of 10; both
    divisors of the sampling loop are non-zero; and for a finite positive
    [totalLength] the pitch is [totalLength] and the last centerline point
    has [y] equal to the circumference. *)
Theorem degenerate_branch (a d l w h : xdouble) (ppr : Z) :
  nonPositiveNaNOrInfinite (grooveRawRevolutions a d l) ->
  (INT_MIN <= ppr <= INT_MAX)%Z ->
  let pts := CalculateSpiralGroove a d l w h ppr in
  groovePitchRevolutions a d l
    = (if d_lt (d_of_int 0) l then l else d_lit 1, d_lit 1)
  /\ grooveTotalPoints a d l ppr = Z.max 10 ppr
  /\ length pts = S (Z.to_nat (Z.max 10 ppr))
  /\ groovePitch a d l <> Fin 0
  /\ d_of_int (grooveTotalPoints a d l ppr) <> Fin 0
  /\ forall lr : R, l = Fin lr -> 0 < lr ->
       groovePitch a d l = l
       /\ exists final,
            nth_error pts (length pts - 1) = Some final
            /\ y final = grooveCircumference d.
Proof.
  intros Hdeg Hppr pts. apply grooveDegenerate_spec in Hdeg.
  pose proof (groovePitchRevolutions_degenerate a d l Hdeg) as Hpr.
  pose proof (grooveTotalPoints_degenerate a d l Hdeg Hppr) as Hn.
  assert (Hlen : length pts = S (Z.to_nat (Z.max 10 ppr))).
  { unfold pts. now rewrite CalculateSpiralGroove_length, Hn. }
  split; [exact Hpr |]. split; [exact Hn |]. split; [exact Hlen |].
  split; [| split].
  - unfold groovePitch. rewrite Hpr. cbn [fst]. xd_ops.
    destruct l as [lr | | |]; cbn [XD.lt].
    + unfold Rltb. destruct (Rlt_dec 0 lr) as [Hpos | Hneg].
      * intros E. injection E as E. lra.
      * rewrite Q2R_1. intros E. injection E as E. lra.
    + discriminate.
    + rewrite Q2R_1. intros E. injection E as E. lra.
    + rewrite Q2R_1. intros E. injection E as E. lra.
  - rewrite Hn. xd_ops. intros E. injection E as E.
    apply eq_IZR in E. lia.
  - intros lr -> Hlr.
    assert (Hp : groovePitch a d (Fin lr) = Fin lr).
    { unfold groovePitch. rewrite Hpr. cbn [fst]. xd_ops. cbn [XD.lt].
      now rewrite Rltb_true. }
    split; [exact Hp |].
    set (n := Z.max 10 ppr) in *.
    assert (HnR : IZR n <> 0) by (apply not_0_IZR; lia).
    exists (groovePoint (Fin lr) (Fin lr) (grooveCircumference d) n n).
    split.
    + rewrite Hlen. unfold pts. rewrite CalculateSpiralGroove_locals, Hp, Hn.
      fold n. unfold loopCounters.
      replace (S (Z.to_nat n) - 1)%nat with (Z.to_nat n) by lia.
      rewrite !nth_error_map, nth_error_seq.
      destruct (Nat.ltb_spec (Z.to_nat n) (S (Z.to_nat n))) as [_ | Hbad]; [| lia].
      cbn [option_map]. rewrite Nat.add_0_l, Z2Nat.id by lia. reflexivity.
    + unfold groovePoint. cbn [y]. xd_ops.
      rewrite xd_div_fin by exact HnR. cbn [XD.mul].
      rewrite xd_div_fin by lra.
      apply xd_mul_one_l. field. split; lra.
Qed.

(** A helix angle of 0 degrees: [tan] is 0, the pitch is infinite and the
    revolutions are 0. *)
Lemma zero_angle_revolutions :
  grooveRawRevolutions (Fin 0) (Fin 10) (Fin 50) = Fin 0.
Proof.
  unfold grooveRawRevolutions, grooveRawPitch.
  rewrite xd_grooveCircumference, xd_M_PI. xd_ops. cbn [XD.mul].
  rewrite xd_div_fin by (rewrite Q2R_180; lra).
  replace (0 * M_PI_R / Q2R 180) with 0 by (unfold Rdiv; ring).
  rewrite xd_tan_fin by (rewrite cos_0; lra). rewrite tan_0.
  pose proof (@circumferenceR_pos 10) as Hc.
  unfold XD.div at 2. rewrite Reqb_true, Reqb_false, Rltb_true by lra.
  reflexivity.
Qed.

Lemma zero_angle_degenerate :
  nonPositiveNaNOrInfinite (grooveRawRevolutions (Fin 0) (Fin 10) (Fin 50)).
Proof. rewrite zero_angle_revolutions. cbn. lra. Qed.

Lemma int_range_100 : (INT_MIN <= 100 <= INT_MAX)%Z.
Proof. unfold INT_MIN, INT_MAX. lia. Qed.

(** C2, counterexample. At a helix angle of 0 degrees (diameter 10,
    length 50, default sampling) the revolutions are non-positive, the
    degenerate branch runs, and the sample-interval count is 100, not
    10. *)
Lemma degenerate_pointCount_not_10 :
  nonPositiveNaNOrInfinite (grooveRawRevolutions (Fin 0) (Fin 10) (Fin 50))
  /\ grooveTotalPoints (Fin 0) (Fin 10) (Fin 50) defaultPointsPerRevolution
     = 100%Z
  /\ grooveTotalPoints (Fin 0) (Fin 10) (Fin 50) defaultPointsPerRevolution
     <> 10%Z.
Proof.
  pose proof zero_angle_degenerate as Hdeg.
  assert (Hn : grooveTotalPoints (Fin 0) (Fin 10) (Fin 50)
                 defaultPointsPerRevolution = 100%Z).
  { rewrite grooveTotalPoints_degenerate;
      [reflexivity | now apply grooveDegenerate_spec | exact int_range_100]. }
  split; [exact Hdeg |]. split; [exact Hn |]. rewrite Hn. discriminate.
Qed.

(** C2, witness: the degenerate branch at 0 degrees, diameter 10,
    length 50, width 2, height 1, 100 samples per revolution. *)
Lemma degenerate_branch_witness :
  nonPositiveNaNOrInfinite (grooveRawRevolutions (Fin 0) (Fin 10) (Fin 50))
  /\ (INT_MIN <= 100 <= INT_MAX)%Z
  /\ let pts :=
       CalculateSpiralGroove (Fin 0) (Fin 10) (Fin 50) (Fin 2) (Fin 1) 100 in
     groovePitchRevolutions (Fin 0) (Fin 10) (Fin 50)
       = (if d_lt (d_of_int 0) (Fin 50) then Fin 50 else d_lit 1, d_lit 1)
     /\ grooveTotalPoints (Fin 0) (Fin 10) (Fin 50) 100 = Z.max 10 100
     /\ length pts = S (Z.to_nat (Z.max 10 100))
     /\ groovePitch (Fin 0) (Fin 10) (Fin 50) <> Fin 0
     /\ d_of_int (grooveTotalPoints (Fin 0) (Fin 10) (Fin 50) 100) <> Fin 0
     /\ forall lr : R, Fin 50 = Fin lr -> 0 < lr ->
          groovePitch (Fin 0) (Fin 10) (Fin 50) = Fin 50
          /\ exists final,
               nth_error pts (length pts - 1) = Some final
               /\ y final = grooveCircumference (Fin 10).
Proof.
  split; [exact zero_angle_degenerate |].
  split; [exact int_range_100 |].
  exact (degenerate_branch (Fin 0) (Fin 10) (Fin 50) (Fin 2) (Fin 1)
           zero_angle_degenerate int_range_100).
Defined.


(** ** Boundaries *)




(** ** Monotonicity in the helix angle *)

Lemma last_loopCounters (A : Type) (f : Z -> A) (n : Z) (dflt : A) :
  (0 <= n)%Z -> last (map f (loopCounters n)) dflt = f n.
Proof.
  intros Hn. unfold loopCounters. rewrite seq_S, !map_app. cbn [map].
  rewrite last_last, Nat.add_0_l, Z2Nat.id by lia. reflexivity.
Qed.

Lemma yExtent_valid a d l w h ppr :
  0 < a < 90 -> 0 < d -> 0 < l ->
  yExtent (CalculateSpiralGroove (Fin a) (Fin d) (Fin l) w h ppr)
  = Some (Fin (l * tan (angleRadR a))).
Proof.
  intros Ha Hd Hl.
  rewrite CalculateSpiralGroove_valid by assumption.
  pose proof (grooveTotalPoints_ge_10 (Fin a) (Fin d) (Fin l) ppr) as Hn.
  set (n := grooveTotalPoints (Fin a) (Fin d) (Fin l) ppr) in *.
  unfold yExtent.
  destruct (map _ (loopCounters n)) as [|p0 tl] eqn:E.
  { apply (f_equal (@length _)) in E.
    rewrite length_map, loopCounters_length in E. discriminate. }
  rewrite <- E, last_loopCounters by lia.
  assert (Hp0 : p0 = validPoint l (pitchR a d) (circumferenceR d) n 0).
  { unfold loopCounters in E. cbn [seq map] in E. now injection E as <- _. }
  rewrite Hp0. unfold validPoint. cbn [y]. xd_ops. cbn [XD.sub XD.add XD.neg].
  do 2 f_equal.
  pose proof (tan_angleRadR_pos Ha). pose proof (circumferenceR_pos Hd).
  assert (IZR n <> 0) by (apply not_0_IZR; lia).
  unfold pitchR. field. repeat split; lra.
Qed.



(** ** Validation *)

Lemma validation_test (a d l w h : R) :
  (d_le (Fin a) (d_of_int 0) || d_le (d_of_int 90) (Fin a)
   || d_le (Fin d) (d_of_int 0) || d_le (Fin l) (d_of_int 0)
   || d_le (Fin w) (d_of_int 0) || d_le (Fin h) (d_of_int 0)) = false
  <-> (0 < a < 90 /\ 0 < d /\ 0 < l /\ 0 < w /\ 0 < h).
Proof.
  xd_ops. cbn [XD.le]. unfold Rleb.
  destruct (Rle_dec a 0), (Rle_dec 90 a), (Rle_dec d 0), (Rle_dec l 0),
    (Rle_dec w 0), (Rle_dec h 0); cbn [orb];
    (split; [intros E; try discriminate E; lra | intros E; try reflexivity; lra]).
Qed.



(** The whole button handler on a rejected submission: the stored
    geometry and transform are still the previous ones after
    [DrawToAutoCAD] has run, and the validation message is the first call
    made. *)
Lemma OnCommand_rejected (win : MainWindow xdouble) (a d l w h : R)
    (rect : RECT) (acad : AutoCADWorld) :
  ~ (0 < a < 90 /\ 0 < d /\ 0 < l /\ 0 < w /\ 0 < h) ->
  exists calls,
    OnCommand win (Fin a) (Fin d) (Fin l) (Fin w) (Fin h) rect acad
    = (win, MessageBox_InvalidParameters :: calls)
    /\ ~ In MessageBox_InvalidParameters calls.
Proof.
  intros Hinvalid. unfold OnCommand.
  destruct (GenerateSpiral win (Fin a) (Fin d) (Fin l) (Fin w) (Fin h) rect)
    as [win1 calls1] eqn:E.
  unfold GenerateSpiral in E.
  destruct (d_le (Fin a) (d_of_int 0) || d_le (d_of_int 90) (Fin a)
            || d_le (Fin d) (d_of_int 0) || d_le (Fin l) (d_of_int 0)
            || d_le (Fin w) (d_of_int 0) || d_le (Fin h) (d_of_int 0)) eqn:Et.
  2:{ apply validation_test in Et. contradiction. }
  injection E as <- <-.
  unfold DrawToAutoCAD.
  destruct (m_centerPoints win) as [|p0 tl] eqn:Ec.
  - eexists. split; [reflexivity |]. intros [Hin | []]. discriminate Hin.
  - rewrite GenerateWithAutoCADAPI_keeps.
    eexists. split.
    + cbn [app]. rewrite <- Ec. destruct win; reflexivity.
    + intros [Hin | [Hin | []]]; discriminate Hin.
Qed.


(** ** View fitting *)

Lemma xd_std_min a b : std_min (Fin a) (Fin b) = Fin (Rmin a b).
Proof.
  unfold std_min, Rmin. xd_ops. cbn [XD.lt]. unfold Rltb.
  destruct (Rlt_dec b a), (Rle_dec a b);
    try reflexivity; try lra; f_equal; lra.
Qed.

Lemma xd_std_max a b : std_max (Fin a) (Fin b) = Fin (Rmax a b).
Proof.
  unfold std_max, Rmax. xd_ops. cbn [XD.lt]. unfold Rltb.
  destruct (Rlt_dec a b), (Rle_dec a b);
    try reflexivity; try lra; f_equal; lra.
Qed.

(** The scale and offsets the fitting step stores, as real numbers. *)
Lemma fitView_recomputes (x0 x1 y0 y1 : R) (rect : RECT)
    (win : MainWindow xdouble) :
  0 < x1 - x0 -> 0 < y1 - y0 ->
  let cw := IZR (clientWidth rect) in
  let ch := IZR (clientHeight rect) in
  let scale := Rmin (cw / (x1 - x0) * (85 / 100)) (ch / (y1 - y0) * (85 / 100)) in
  fitView (mkBounds (Fin x0) (Fin x1) (Fin y0) (Fin y1)) rect win
  = mkMainWindow (m_centerPoints win) (m_boundaries win) (m_toolOutline win)
      (Fin scale) (Fin scale)
      (Fin (250 + (cw - (x1 - x0) * scale) / 2 - x0 * scale))
      (Fin (10 + (ch - (y1 - y0) * scale) / 2 - y0 * scale)).
Proof.
  intros Hx Hy cw ch scale. unfold fitView. cbn [minX maxX minY maxY].
  xd_ops. cbn [XD.sub XD.add XD.neg XD.lt].
  replace (x1 + - x0) with (x1 - x0) by lra.
  replace (y1 + - y0) with (y1 - y0) by lra.
  rewrite !Rltb_true by lra. cbn [andb].
  rewrite !(xd_div_fin _ (s := x1 - x0)), !(xd_div_fin _ (s := y1 - y0)) by lra.
  cbn [XD.mul]. rewrite Q2R_85_100, xd_std_min.
  fold cw ch. fold scale. cbn [XD.mul XD.add XD.neg].
  rewrite !xd_div_fin by lra. cbn [XD.add XD.neg].
  f_equal; f_equal; lra.
Qed.

Lemma fitView_retains (b : Bounds xdouble) (rect : RECT)
    (win : MainWindow xdouble) (x0 x1 y0 y1 : R) :
  b = mkBounds (Fin x0) (Fin x1) (Fin y0) (Fin y1) ->
  ~ (0 < x1 - x0 /\ 0 < y1 - y0) ->
  fitView b rect win = win.
Proof.
  intros -> Hno. unfold fitView. cbn [minX maxX minY maxY].
  xd_ops. cbn [XD.sub XD.add XD.neg XD.lt]. unfold Rltb.
  destruct (Rlt_dec 0 (x1 + - x0)), (Rlt_dec 0 (y1 + - y0)); cbn [andb];
    try reflexivity.
  exfalso. apply Hno. lra.
Qed.

Lemma Rmin_scaled a b k : 0 <= k -> Rmin (a * k) (b * k) = Rmin a b * k.
Proof.
  intros Hk. unfold Rmin.
  destruct (Rle_dec (a * k) (b * k)), (Rle_dec a b); try reflexivity; nra.
Qed.



(** ** The bounding box of a validated run *)

Lemma boundsAddPoint_encloses b x0 x1 y0 y1 px py :
  encloses b x0 x1 y0 y1 ->
  encloses (boundsAddPoint b (mkPoint2D (Fin px) (Fin py)))
    (Rmin x0 px) (Rmax x1 px) (Rmin y0 py) (Rmax y1 py).
Proof.
  intros (bx0 & bx1 & by0 & by1 & -> & H1 & H2 & H3 & H4).
  unfold boundsAddPoint. cbn [minX maxX minY maxY x y].
  rewrite !xd_std_min, !xd_std_max.
  eexists _, _, _, _. split; [reflexivity |].
  repeat split.
  - apply Rle_min_compat_r; exact H1.
  - apply Rle_max_compat_r; exact H2.
  - apply Rle_min_compat_r; exact H3.
  - apply Rle_max_compat_r; exact H4.
Qed.

Lemma encloses_weaken b x0 x1 y0 y1 x0' x1' y0' y1' :
  encloses b x0 x1 y0 y1 ->
  x0 <= x0' -> x1' <= x1 -> y0 <= y0' -> y1' <= y1 ->
  encloses b x0' x1' y0' y1'.
Proof.
  intros (bx0 & bx1 & by0 & by1 & -> & H1 & H2 & H3 & H4) ? ? ? ?.
  exists bx0, bx1, by0, by1. repeat split; lra.
Qed.

Lemma fold_boundsAddPoint_encloses (pts : list (Point2D xdouble)) :
  Forall finitePoint pts ->
  forall b x0 x1 y0 y1,
    encloses b x0 x1 y0 y1 ->
    encloses (fold_left boundsAddPoint pts b) x0 x1 y0 y1.
Proof.
  induction 1 as [|p pts [px [py ->]] _ IH]; intros b x0 x1 y0 y1 Hb;
    [exact Hb |].
  cbn [fold_left].
  eapply encloses_weaken.
  - apply IH. apply boundsAddPoint_encloses. exact Hb.
  - apply Rmin_l.
  - apply Rmax_l.
  - apply Rmin_l.
  - apply Rmax_l.
Qed.

Lemma fold_boundsAddPoint_covers (pts : list (Point2D xdouble)) px py :
  Forall finitePoint pts ->
  In (mkPoint2D (Fin px) (Fin py)) pts ->
  forall b x0 x1 y0 y1,
    encloses b x0 x1 y0 y1 ->
    encloses (fold_left boundsAddPoint pts b)
      (Rmin x0 px) (Rmax x1 px) (Rmin y0 py) (Rmax y1 py).
Proof.
  induction 1 as [|p pts [qx [qy ->]] Hrest IH]; intros Hin b x0 x1 y0 y1 Hb;
    [contradiction |].
  cbn [fold_left]. destruct Hin as [E | Hin].
  - injection E as -> ->.
    apply fold_boundsAddPoint_encloses; [exact Hrest |].
    apply boundsAddPoint_encloses. exact Hb.
  - eapply encloses_weaken.
    + apply IH; [exact Hin |]. apply boundsAddPoint_encloses. exact Hb.
    + apply Rle_min_compat_r, Rmin_l.
    + apply Rle_max_compat_r, Rmax_l.
    + apply Rle_min_compat_r, Rmin_l.
    + apply Rle_max_compat_r, Rmax_l.
Qed.

Lemma fold_boundsAddBoundary_encloses
    (bs : list (Point2D xdouble * Point2D xdouble)) :
  Forall finitePair bs ->
  forall b x0 x1 y0 y1,
    encloses b x0 x1 y0 y1 ->
    encloses (fold_left boundsAddBoundary bs b) x0 x1 y0 y1.
Proof.
  induction 1 as [|[p q] bs [[px [py Ep]] [qx [qy Eq]]] _ IH];
    intros b x0 x1 y0 y1 Hb; [exact Hb |].
  cbn [fst snd] in Ep, Eq. subst p q.
  cbn [fold_left]. apply IH.
  destruct Hb as (bx0 & bx1 & by0 & by1 & -> & H1 & H2 & H3 & H4).
  unfold boundsAddBoundary. cbn [minX maxX minY maxY x y fst snd].
  rewrite !xd_std_min, !xd_std_max.
  eexists _, _, _, _. split; [reflexivity |].
  repeat split.
  - eapply Rle_trans; [apply Rmin_l | exact H1].
  - eapply Rle_trans; [exact H2 | apply Rmax_l].
  - eapply Rle_trans; [apply Rmin_l | exact H3].
  - eapply Rle_trans; [exact H4 | apply Rmax_l].
Qed.

Lemma validPoints_finite l p c n (ks : list Z) :
  Forall finitePoint (map (validPoint l p c n) ks).
Proof.
  apply Forall_forall. intros q Hq. apply in_map_iff in Hq.
  destruct Hq as [i [<- _]]. eexists _, _. reflexivity.
Qed.

Lemma CalculateBoundaries_finite (c : list (Point2D xdouble)) (w : R) :
  Forall finitePoint c -> Forall finitePair (CalculateBoundaries c (Fin w)).
Proof.
  intros Hc. unfold CalculateBoundaries.
  destruct (length c <? 2)%nat; [constructor |].
  apply Forall_forall. intros b Hb. apply in_map_iff in Hb.
  destruct Hb as [p [<- Hp]].
  rewrite Forall_forall in Hc. destruct (Hc p Hp) as [px [py ->]].
  cbn [x y]. xd_ops. rewrite xd_div_fin by (rewrite Q2R_2; lra).
  split; eexists _, _; reflexivity.
Qed.

Lemma xd_CalculateToolOutline (d l : R) :
  CalculateToolOutline (Fin d) (Fin l)
  = [ mkPoint2D (Fin 0) (Fin (- (d / 2)));
      mkPoint2D (Fin l) (Fin (- (d / 2)));
      mkPoint2D (Fin l) (Fin (d / 2));
      mkPoint2D (Fin 0) (Fin (d / 2));
      mkPoint2D (Fin 0) (Fin (- (d / 2))) ].
Proof.
  unfold CalculateToolOutline. xd_ops.
  rewrite xd_div_fin by (rewrite Q2R_2; lra). rewrite Q2R_2. reflexivity.
Qed.

(** On validated input [GenerateSpiral] stores the three sequences and
    fits the view to a finite box that spans at least the tool outline:
    both extents are positive, so the transform is always recomputed. *)
Lemma GenerateSpiral_accepts (win : MainWindow xdouble) (a d l w h : R)
    (rect : RECT) :
  0 < a < 90 -> 0 < d -> 0 < l -> 0 < w -> 0 < h ->
  exists x0 x1 y0 y1 : R,
    l <= x1 - x0 /\ d <= y1 - y0
    /\ GenerateSpiral win (Fin a) (Fin d) (Fin l) (Fin w) (Fin h) rect
       = (fitView (mkBounds (Fin x0) (Fin x1) (Fin y0) (Fin y1)) rect
            (mkMainWindow
               (CalculateSpiralGroove (Fin a) (Fin d) (Fin l) (Fin w) (Fin h)
                  defaultPointsPerRevolution)
               (CalculateBoundaries
                  (CalculateSpiralGroove (Fin a) (Fin d) (Fin l) (Fin w)
                     (Fin h) defaultPointsPerRevolution) (Fin w))
               (CalculateToolOutline (Fin d) (Fin l))
               (m_scaleX win) (m_scaleY win) (m_offsetX win) (m_offsetY win)),
          [SetWindowText_Info; InvalidateRect_All]).
Proof.
  intros Ha Hd Hl Hw Hh. unfold GenerateSpiral.
  destruct (d_le (Fin a) (d_of_int 0) || d_le (d_of_int 90) (Fin a)
            || d_le (Fin d) (d_of_int 0) || d_le (Fin l) (d_of_int 0)
            || d_le (Fin w) (d_of_int 0) || d_le (Fin h) (d_of_int 0)) eqn:Et.
  { exfalso. revert Et. xd_ops. cbn [XD.le].
    rewrite !Rleb_false by lra. discriminate. }
  set (pts := CalculateSpiralGroove _ _ _ _ _ _).
  cbn [m_centerPoints].
  assert (Hpts : pts = map (validPoint l (pitchR a d) (circumferenceR d)
                   (grooveTotalPoints (Fin a) (Fin d) (Fin l)
                      defaultPointsPerRevolution))
                 (loopCounters (grooveTotalPoints (Fin a) (Fin d) (Fin l)
                      defaultPointsPerRevolution)))
    by (now apply CalculateSpiralGroove_valid).
  assert (Hfin : Forall finitePoint pts)
    by (rewrite Hpts; apply validPoints_finite).
  destruct pts as [|p0 tl] eqn:Epts.
  { apply (f_equal (@length _)) in Hpts.
    rewrite length_map, loopCounters_length in Hpts. discriminate. }
  rewrite <- Epts in *. clear Hpts.
  assert (Hp0 : finitePoint p0).
  { rewrite Epts in Hfin. now inversion Hfin. }
  destruct Hp0 as [px [py ->]].
  unfold geometryBounds. cbn [m_centerPoints m_boundaries m_toolOutline x y].
  assert (H0 : encloses (mkBounds (Fin px) (Fin px) (Fin py) (Fin py))
                 px px py py).
  { exists px, px, py, py. repeat split; lra. }
  pose proof (fold_boundsAddPoint_encloses Hfin H0) as H1.
  pose proof (fold_boundsAddBoundary_encloses
                (CalculateBoundaries_finite w Hfin) H1) as H2.
  rewrite xd_CalculateToolOutline.
  set (outline := [_; _; _; _; _]).
  assert (Hout : Forall finitePoint outline).
  { unfold outline. repeat constructor; eexists _, _; reflexivity. }
  pose proof (fold_boundsAddPoint_covers 0 (- (d / 2)) Hout
                (or_introl eq_refl) H2) as Hlow.
  pose proof (fold_boundsAddPoint_covers l (d / 2) Hout
                (or_intror (or_intror (or_introl eq_refl))) H2) as Hhigh.
  destruct Hlow as (x0 & x1 & y0 & y1 & E & L1 & L2 & L3 & L4).
  destruct Hhigh as (x0' & x1' & y0' & y1' & E' & U1 & U2 & U3 & U4).
  rewrite E in E'. injection E' as <- <- <- <-.
  exists x0, x1, y0, y1.
  pose proof (Rmin_r px 0). pose proof (Rmax_r px l).
  pose proof (Rmin_r py (- (d / 2))). pose proof (Rmax_r py (d / 2)).
  split; [lra |]. split; [lra |].
  rewrite E. reflexivity.
Qed.





(** * Further properties of the code *)

(** ** Every [double] arithmetic *)

Section MoreAnyArithmetic.
Context {D : Type} `{DoubleOps D}.

(** The two length facts the window code relies on. *)
Lemma CalculateSpiralGroove_min_length
    (spiralAngle drillDiameter totalLength bladeWidth bladeHeight : D)
    (pointsPerRevolution : Z) :
  (11 <= length (CalculateSpiralGroove spiralAngle drillDiameter totalLength
                   bladeWidth bladeHeight pointsPerRevolution))%nat
  /\ length (CalculateBoundaries
               (CalculateSpiralGroove spiralAngle drillDiameter totalLength
                  bladeWidth bladeHeight pointsPerRevolution) bladeWidth)
     = length (CalculateSpiralGroove spiralAngle drillDiameter totalLength
                 bladeWidth bladeHeight pointsPerRevolution).
Proof.
  pose proof (grooveTotalPoints_ge_10 spiralAngle drillDiameter totalLength
                pointsPerRevolution) as Hn.
  assert (Hlen : (11 <= length (CalculateSpiralGroove spiralAngle
                      drillDiameter totalLength bladeWidth bladeHeight
                      pointsPerRevolution))%nat).
  { rewrite CalculateSpiralGroove_length. lia. }
  split; [exact Hlen |].
  apply CalculateBoundaries_length. lia.
Qed.

(** X1. For every input, NaN and non-positive values included, and in
    every [double] arithmetic, [CalculateSpiralGroove] returns at least 11
    points, and [CalculateBoundaries] on its result returns one pair per
    point: the guard for short centerlines never fires on a generated
    centerline. *)
Theorem CalculateSpiralGroove_never_short
    (spiralAngle drillDiameter totalLength bladeWidth bladeHeight : D)
    (pointsPerRevolution : Z) :
  (11 <= length (CalculateSpiralGroove spiralAngle drillDiameter totalLength
                   bladeWidth bladeHeight pointsPerRevolution))%nat
  /\ length (CalculateBoundaries
               (CalculateSpiralGroove spiralAngle drillDiameter totalLength
                  bladeWidth bladeHeight pointsPerRevolution) bladeWidth)
     = length (CalculateSpiralGroove spiralAngle drillDiameter totalLength
                 bladeWidth bladeHeight pointsPerRevolution).
Proof.
  split.
  - apply (proj1 (CalculateSpiralGroove_min_length spiralAngle drillDiameter
                    totalLength bladeWidth bladeHeight pointsPerRevolution)).
  - apply (proj2 (CalculateSpiralGroove_min_length spiralAngle drillDiameter
                    totalLength bladeWidth bladeHeight pointsPerRevolution)).
Qed.

Lemma GenerateSpiral_rejected win a d l w h rect :
  rejects a d l w h = true ->
  GenerateSpiral win a d l w h rect = (win, [MessageBox_InvalidParameters]).
Proof. intros E. unfold GenerateSpiral. fold (rejects a d l w h). now rewrite E. Qed.

Lemma GenerateSpiral_accepted win a d l w h rect :
  rejects a d l w h = false ->
  exists p0 tl,
    CalculateSpiralGroove a d l w h defaultPointsPerRevolution = p0 :: tl
    /\ GenerateSpiral win a d l w h rect
       = (fitView (geometryBounds p0 (storedGeometry win a d l w h)) rect
            (storedGeometry win a d l w h),
          [SetWindowText_Info; InvalidateRect_All]).
Proof.
  intros E. unfold GenerateSpiral. fold (rejects a d l w h). rewrite E.
  fold (storedGeometry win a d l w h).
  pose proof (CalculateSpiralGroove_min_length a d l w h
                defaultPointsPerRevolution) as [Hlen _].
  cbn [m_centerPoints storedGeometry].
  destruct (CalculateSpiralGroove a d l w h defaultPointsPerRevolution)
    as [|p0 tl] eqn:Ec; [simpl in Hlen; lia |].
  exists p0, tl. split; reflexivity.
Qed.

Lemma fitView_geometry (b : Bounds D) rect (win : MainWindow D) :
  m_centerPoints (fitView b rect win) = m_centerPoints win
  /\ m_boundaries (fitView b rect win) = m_boundaries win
  /\ m_toolOutline (fitView b rect win) = m_toolOutline win.
Proof.
  unfold fitView.
  destruct (d_lt (d_of_int 0) (d_sub (maxX b) (minX b))
            && d_lt (d_of_int 0) (d_sub (maxY b) (minY b)));
    repeat split; reflexivity.
Qed.

(** X2. [GenerateSpiral] has two outcomes.  Either it rejects: the window
    is unchanged and the only call is the error box.  Or it accepts: the
    calls are the info text and the repaint request, and the window holds
    the centerline of the five parameters at 100 samples per revolution
    (at least 11 points), the boundaries computed from that centerline,
    one pair per point, and the 5-point outline. *)
Theorem GenerateSpiral_outcomes (win : MainWindow D)
    (a d l w h : D) (rect : RECT) :
  let result := GenerateSpiral win a d l w h rect in
  result = (win, [MessageBox_InvalidParameters])
  \/ (snd result = [SetWindowText_Info; InvalidateRect_All]
      /\ m_centerPoints (fst result)
         = CalculateSpiralGroove a d l w h defaultPointsPerRevolution
      /\ m_boundaries (fst result)
         = CalculateBoundaries (m_centerPoints (fst result)) w
      /\ m_toolOutline (fst result) = CalculateToolOutline d l
      /\ (11 <= length (m_centerPoints (fst result)))%nat
      /\ length (m_boundaries (fst result))
         = length (m_centerPoints (fst result))
      /\ length (m_toolOutline (fst result)) = 5%nat).
Proof.
  intros result. unfold result.
  destruct (rejects a d l w h) eqn:E.
  - left. now apply GenerateSpiral_rejected.
  - right. destruct (GenerateSpiral_accepted win a d l w h rect E) as (p0 & tl & Ec & ->).
    cbn [fst snd].
    destruct (fitView_geometry (geometryBounds p0 (storedGeometry win a d l w h))
                rect (storedGeometry win a d l w h)) as (-> & -> & ->).
    cbn [storedGeometry m_centerPoints m_boundaries m_toolOutline].
    pose proof (CalculateSpiralGroove_min_length a d l w h
                  defaultPointsPerRevolution) as [Hlen Hb].
    repeat split; try reflexivity; assumption.
Qed.

(** X3. Submitting the same parameters twice gives the same window and
    the same calls as submitting them once: nothing of the previous
    geometry or transform leaks into a recomputation. *)
Theorem GenerateSpiral_idempotent (win : MainWindow D)
    (a d l w h : D) (rect : RECT) :
  GenerateSpiral (fst (GenerateSpiral win a d l w h rect)) a d l w h rect
  = GenerateSpiral win a d l w h rect.
Proof.
  destruct (rejects a d l w h) eqn:E.
  - rewrite (GenerateSpiral_rejected win a d l w h rect E). cbn [fst].
    now apply GenerateSpiral_rejected.
  - destruct (GenerateSpiral_accepted win a d l w h rect E) as (p0 & tl & Ec & E1).
    rewrite E1. cbn [fst].
    set (w1 := fitView _ rect (storedGeometry win a d l w h)).
    destruct (GenerateSpiral_accepted w1 a d l w h rect E) as (p0' & tl' & Ec' & E2).
    rewrite E2. rewrite Ec in Ec'. injection Ec' as <- <-.
    f_equal.
    change (geometryBounds p0 (storedGeometry w1 a d l w h))
      with (geometryBounds p0 (storedGeometry win a d l w h)).
    unfold w1. set (b := geometryBounds p0 (storedGeometry win a d l w h)).
    unfold fitView.
    destruct (d_lt (d_of_int 0) (d_sub (maxX b) (minX b))
              && d_lt (d_of_int 0) (d_sub (maxY b) (minY b))); reflexivity.
Qed.

End MoreAnyArithmetic.

Section MoreAnyArithmetic2.
Context {D : Type} `{DoubleOps D}.

Lemma DrawToAutoCAD_keeps_window (win : MainWindow D) (acad : AutoCADWorld) :
  DrawToAutoCAD win acad
  = (win, match m_centerPoints win with
          | [] => [MessageBox_GenerateFirst]
          | _ :: _ => [InvalidateRect_All; UpdateWindow_Now]
          end).
Proof.
  unfold DrawToAutoCAD. destruct (m_centerPoints win) as [|p0 tl] eqn:Ec.
  - reflexivity.
  - rewrite GenerateWithAutoCADAPI_keeps. rewrite <- Ec.
    destruct win; reflexivity.
Qed.

(** X4. The button handler always leaves the window as [GenerateSpiral]
    left it, whatever the AutoCAD server answers.  Its calls are one of
    three lists: error box then the "generate first" box (rejected,
    nothing stored), error box then two repaint calls (rejected, geometry
    stored), or info text and three repaint calls (accepted); an accepted
    submission never shows a message box. *)
Theorem OnCommand_outcomes (win : MainWindow D) (a d l w h : D)
    (rect : RECT) (acad : AutoCADWorld) :
  let result := OnCommand win a d l w h rect acad in
  fst result = fst (GenerateSpiral win a d l w h rect)
  /\ ((fst result = win /\ m_centerPoints win = []
       /\ snd result
          = [MessageBox_InvalidParameters; MessageBox_GenerateFirst])
      \/ (fst result = win /\ m_centerPoints win <> []
          /\ snd result
             = [MessageBox_InvalidParameters; InvalidateRect_All;
                UpdateWindow_Now])
      \/ (m_centerPoints (fst result)
          = CalculateSpiralGroove a d l w h defaultPointsPerRevolution
          /\ snd result
             = [SetWindowText_Info; InvalidateRect_All; InvalidateRect_All;
                UpdateWindow_Now])).
Proof.
  intros result. unfold result, OnCommand.
  destruct (rejects a d l w h) eqn:E.
  - rewrite (GenerateSpiral_rejected win a d l w h rect E).
    rewrite DrawToAutoCAD_keeps_window. cbn [fst snd].
    split; [reflexivity |].
    destruct (m_centerPoints win) as [|p0 tl] eqn:Ec.
    + left. repeat split.
    + right. left. repeat split. discriminate.
  - destruct (GenerateSpiral_accepted win a d l w h rect E)
      as (p0 & tl & Ec & ->).
    rewrite DrawToAutoCAD_keeps_window. cbn [fst snd].
    split; [reflexivity |]. right. right.
    destruct (fitView_geometry
                (geometryBounds p0 (storedGeometry win a d l w h)) rect
                (storedGeometry win a d l w h)) as (Hc & _ & _).
    rewrite Hc. cbn [storedGeometry m_centerPoints]. rewrite Ec.
    split; reflexivity.
Qed.

Context {F : Type}.
Variable toFloat : D -> F.

(** X5. After an accepted submission [DrawGraphics] sets the smoothing
    mode, clears, and draws exactly four polylines in the order outline,
    left boundary, right boundary, centerline; the outline has 5 vertices
    and the three others have one vertex per centerline point. *)
Theorem DrawGraphics_after_GenerateSpiral (win : MainWindow D)
    (a d l w h : D) (rect : RECT) :
  let result := GenerateSpiral win a d l w h rect in
  snd result = [SetWindowText_Info; InvalidateRect_All] ->
  exists outline left right center : list (F * F),
    DrawGraphics toFloat (fst result)
    = [SetSmoothingMode_AntiAlias; Clear_White;
       DrawLines outlinePen outline; DrawLines leftPen left;
       DrawLines rightPen right; DrawLines centerPen center]
    /\ length outline = 5%nat
    /\ length left = length center
    /\ length right = length center
    /\ length center = length (m_centerPoints (fst result))
    /\ (11 <= length center)%nat.
Proof.
  intros result Hacc. unfold result in *.
  destruct (rejects a d l w h) eqn:E.
  { rewrite (GenerateSpiral_rejected win a d l w h rect E) in Hacc.
    discriminate Hacc. }
  clear Hacc.
  destruct (GenerateSpiral_accepted win a d l w h rect E)
    as (p0 & tl & Ec & ->).
  cbn [fst].
  set (w1 := fitView _ rect _).
  destruct (fitView_geometry
              (geometryBounds p0 (storedGeometry win a d l w h)) rect
              (storedGeometry win a d l w h)) as (Hc & Hb & Ho).
  fold w1 in Hc, Hb, Ho.
  cbn [storedGeometry m_centerPoints m_boundaries m_toolOutline] in Hc, Hb, Ho.
  pose proof (CalculateSpiralGroove_min_length a d l w h
                defaultPointsPerRevolution) as [Hlen Hbl].
  unfold DrawGraphics. rewrite Hc, Hb, Ho, Ec. rewrite <- Ec.
  rewrite Hbl.
  replace (2 <=? length (CalculateToolOutline d l))%nat with true
    by reflexivity.
  destruct (Nat.leb_spec 2
              (length (CalculateSpiralGroove a d l w h
                         defaultPointsPerRevolution))) as [_ | Hbad];
    [| lia].
  eexists _, _, _, _. split; [reflexivity |].
  rewrite !length_map, Hbl. repeat split; try reflexivity. exact Hlen.
Qed.

End MoreAnyArithmetic2.

(** ** GetAutoCADApp *)

(** X6. [GetAutoCADApp] returns false for a null [ppApp].  Otherwise it
    returns true exactly when it has stored a non-null pointer, which
    needs the ProgID to resolve; in every other case it returns false and
    the slot holds [nullptr]. *)
Theorem GetAutoCADApp_contract (r : AppReplies) (slot : option nat) :
  GetAutoCADApp r None = (false, None)
  /\ ((exists ptr, GetAutoCADApp r (Some slot) = (true, Some (Some ptr))
                   /\ clsidFromProgID_ok r = true)
      \/ GetAutoCADApp r (Some slot) = (false, Some None)).
Proof.
  split; [reflexivity |].
  unfold GetAutoCADApp.
  destruct (clsidFromProgID_ok r); cbn [negb]; [| now right].
  destruct (getActiveObject_ok r).
  - destruct (getActiveObject_ptr r) as [ptr |]; [left; now exists ptr | now right].
  - destruct (coCreateInstance_ptr r) as [ptr |]; [| now right].
    destruct (coCreateInstance_ok r); [left; now exists ptr | now right].
Qed.

(** ** The coordinate array of SmoothPolylineWithAutoCAD *)

Section SmoothingFacts.
Context {D : Type}.

Lemma flattenPoints_length (pts : list (Point2D D)) :
  length (flattenPoints pts) = (2 * length pts)%nat.
Proof. induction pts as [|p pts IH]; simpl; [reflexivity | rewrite IH; lia]. Qed.

Lemma flattenPoints_even (pts : list (Point2D D)) k :
  nth_error (flattenPoints pts) (2 * k) = option_map x (nth_error pts k).
Proof.
  revert k. induction pts as [|p pts IH]; intros [|k].
  - reflexivity.
  - reflexivity.
  - reflexivity.
  - replace (2 * S k)%nat with (S (S (2 * k))) by lia. simpl. apply IH.
Qed.

Lemma flattenPoints_odd (pts : list (Point2D D)) k :
  nth_error (flattenPoints pts) (2 * k + 1) = option_map y (nth_error pts k).
Proof.
  revert k. induction pts as [|p pts IH]; intros [|k].
  - reflexivity.
  - reflexivity.
  - reflexivity.
  - replace (2 * S k + 1)%nat with (S (S (2 * k + 1))) by lia. simpl. apply IH.
Qed.

Lemma readAt_nat (data : list D) (n : nat) :
  readAt data (Z.of_nat n) = nth_error data n.
Proof.
  unfold readAt. destruct (Z.ltb_spec (Z.of_nat n) 0); [lia |].
  now rewrite Nat2Z.id.
Qed.

Lemma collectPairs_flatten (pts : list (Point2D D)) m s :
  (s + m <= length pts)%nat ->
  collectPairs (flattenPoints pts) 0 (seq s m)
  = Some (firstn m (skipn s pts)).
Proof.
  revert s. induction m as [|m IH]; intros s Hs; [reflexivity |].
  cbn [seq collectPairs].
  replace (0 + 2 * Z.of_nat s)%Z with (Z.of_nat (2 * s)) by lia.
  replace (Z.of_nat (2 * s) + 1)%Z with (Z.of_nat (2 * s + 1)) by lia.
  rewrite !readAt_nat, flattenPoints_even, flattenPoints_odd.
  rewrite IH by lia.
  destruct (nth_error pts s) as [p |] eqn:Ep.
  - cbn [option_map].
    assert (Hsk : skipn s pts = p :: skipn (S s) pts).
    { clear -Ep. revert s Ep. induction pts as [|q pts IH]; intros [|s] Ep;
        try discriminate.
      - now injection Ep as ->.
      - simpl. now apply IH. }
    rewrite Hsk. destruct p; reflexivity.
  - apply nth_error_None in Ep. lia.
Qed.

Lemma coordinatePairs_round_trip (pts : list (Point2D D)) :
  coordinatePairs 0 (flattenPoints pts) = Some pts.
Proof.
  unfold coordinatePairs. rewrite flattenPoints_length.
  replace (2 * length pts / 2)%nat with (length pts)
    by (rewrite Nat.mul_comm, Nat.div_mul; lia).
  rewrite collectPairs_flatten by lia.
  now rewrite skipn_O, firstn_all.
Qed.

End SmoothingFacts.

(** ** Decoding the coordinate array *)

Section SmoothingFacts2.
Context {D : Type}.

Lemma collectPairs_zero_based (data : list D) m s :
  (2 * (s + m) <= length data)%nat ->
  exists pts, collectPairs data 0 (seq s m) = Some pts /\ length pts = m.
Proof.
  revert s. induction m as [|m IH]; intros s Hs.
  - exists []. split; reflexivity.
  - cbn [seq collectPairs].
    replace (0 + 2 * Z.of_nat s)%Z with (Z.of_nat (2 * s)) by lia.
    replace (Z.of_nat (2 * s) + 1)%Z with (Z.of_nat (2 * s + 1)) by lia.
    rewrite !readAt_nat.
    destruct (nth_error data (2 * s)) as [u |] eqn:Eu;
      [| apply nth_error_None in Eu; lia].
    destruct (nth_error data (2 * s + 1)) as [v |] eqn:Ev;
      [| apply nth_error_None in Ev; lia].
    destruct (IH (S s)) as (pts & -> & Hlen); [lia |].
    eexists. split; [reflexivity |]. simpl. now rewrite Hlen.
Qed.

Lemma coordinatePairs_zero_based (data : list D) :
  exists pts, coordinatePairs 0 data = Some pts
              /\ length pts = Nat.div (length data) 2.
Proof.
  unfold coordinatePairs. apply collectPairs_zero_based.
  pose proof (Nat.Div0.mul_div_le (length data) 2). lia.
Qed.

(** X7. [OptimizePointsWithAutoCAD] leaves the points as they are (with
    result true or false) unless the input has at least 2 points and the
    [Coordinates] call returned an array; then the points become the
    pairs decoded from that array.  For an array with lower bound 0 the
    decoding is defined and yields half as many points as the array has
    elements (an odd last element is dropped). *)
Theorem OptimizePointsWithAutoCAD_outcomes (r : SmoothReplies D)
    (points : list (Point2D D)) :
  OptimizePointsWithAutoCAD r points = Some (true, points)
  \/ OptimizePointsWithAutoCAD r points = Some (false, points)
  \/ exists (lBound : Z) (data : list D),
       (2 <= length points)%nat
       /\ sm_coordinates r (flattenPoints points) = Some (lBound, data)
       /\ OptimizePointsWithAutoCAD r points
          = option_map (pair true) (coordinatePairs lBound data)
       /\ (lBound = 0%Z ->
           exists optimized,
             OptimizePointsWithAutoCAD r points = Some (true, optimized)
             /\ length optimized = Nat.div (length data) 2).
Proof.
  unfold OptimizePointsWithAutoCAD, SmoothPolylineWithAutoCAD.
  destruct (Nat.ltb_spec (length points) 2) as [Hlt | Hge]; [now left |].
  destruct (sm_coInitializeEx_ok r); cbn [negb]; [| now right; left].
  destruct (sm_throws r); [now right; left |].
  destruct (smoothReachesCoordinates r (flattenPoints points));
    [| now left].
  destruct (sm_coordinates r (flattenPoints points)) as [[lBound data] |]
    eqn:Ecoord; [| now left].
  right. right. exists lBound, data.
  split; [exact Hge |]. split; [reflexivity |]. split.
  - destruct (coordinatePairs lBound data); reflexivity.
  - intros ->. destruct (coordinatePairs_zero_based data) as (pts & -> & Hlen).
    exists pts. split; [reflexivity | exact Hlen].
Qed.

(** X8. Round trip of the coordinate array: when AutoCAD returns,
    zero-based, the coordinates it was handed, [OptimizePointsWithAutoCAD]
    gives the points back unchanged; it returns false exactly when the
    input has at least 2 points and COM initialisation fails or an
    exception is caught. *)
Theorem OptimizePointsWithAutoCAD_echo (r : SmoothReplies D)
    (points : list (Point2D D)) :
  sm_coordinates r (flattenPoints points) = Some (0%Z, flattenPoints points) ->
  exists ok : bool,
    OptimizePointsWithAutoCAD r points = Some (ok, points)
    /\ (ok = false <->
        (2 <= length points)%nat
        /\ (sm_coInitializeEx_ok r = false \/ sm_throws r = true)).
Proof.
  intros Hecho.
  unfold OptimizePointsWithAutoCAD, SmoothPolylineWithAutoCAD.
  destruct (Nat.ltb_spec (length points) 2) as [Hlt | Hge].
  { exists true. split; [reflexivity |]. split; [discriminate | lia]. }
  destruct (sm_coInitializeEx_ok r); cbn [negb].
  2:{ exists false. split; [reflexivity |]. split; auto. }
  destruct (sm_throws r).
  { exists false. split; [reflexivity |]. split; auto. }
  exists true. split.
  - destruct (smoothReachesCoordinates r (flattenPoints points));
      [| reflexivity].
    rewrite Hecho, coordinatePairs_round_trip. reflexivity.
  - split; [discriminate |]. intros [_ [E | E]]; discriminate E.
Qed.

End SmoothingFacts2.

(** ** The centerline in exact arithmetic *)

Lemma nth_error_loopCounters (A : Type) (f : Z -> A) (n : Z) (i : nat) (v : A) :
  nth_error (map f (loopCounters n)) i = Some v ->
  (i <= Z.to_nat n)%nat /\ v = f (Z.of_nat i).
Proof.
  unfold loopCounters. rewrite !nth_error_map, nth_error_seq.
  destruct (Nat.ltb_spec i (S (Z.to_nat n))) as [Hlt | Hge]; cbn [option_map].
  - intros E. injection E as <-. split; [lia | reflexivity].
  - discriminate.
Qed.


Lemma pitchR_scaled a d k : 0 < a < 90 -> 0 < d -> 0 < k ->
  pitchR a (k * d) = k * pitchR a d.
Proof.
  intros Ha Hd Hk. pose proof (tan_angleRadR_pos Ha).
  unfold pitchR, circumferenceR. field. lra.
Qed.


(** ** A length that is not positive *)

Lemma grooveRawRevolutions_finite a d l :
  0 < a < 90 -> 0 < d ->
  grooveRawRevolutions (Fin a) (Fin d) (Fin l) = Fin (l / pitchR a d).
Proof.
  intros Ha Hd.
  pose proof (tan_angleRadR_pos Ha) as Htan.
  pose proof (pitchR_pos Ha Hd) as Hp.
  assert (Hcos : cos (angleRadR a) <> 0).
  { pose proof (angleRadR_range Ha). apply Rgt_not_eq, cos_gt_0; lra. }
  unfold grooveRawRevolutions, grooveRawPitch.
  rewrite xd_grooveCircumference, xd_M_PI.
  xd_ops. cbn [XD.mul].
  rewrite (xd_div_fin (a * M_PI_R)) by (rewrite Q2R_180; lra).
  rewrite Q2R_180. fold (angleRadR a). rewrite xd_tan_fin by exact Hcos.
  rewrite xd_div_fin by lra. fold (pitchR a d).
  now rewrite xd_div_fin by lra.
Qed.


(** ** The exact bounding box of a validated run *)

Lemma boundsAddPoint_within b x0 x1 y0 y1 p :
  within b x0 x1 y0 y1 -> pointIn x0 x1 y0 y1 p ->
  within (boundsAddPoint b p) x0 x1 y0 y1.
Proof.
  intros (bx0 & bx1 & by0 & by1 & -> & H1 & H2 & H3 & H4)
         (px & py & -> & Hx & Hy).
  unfold boundsAddPoint. cbn [minX maxX minY maxY x y].
  rewrite !xd_std_min, !xd_std_max.
  eexists _, _, _, _. split; [reflexivity |].
  repeat split.
  - apply Rmin_glb; lra.
  - apply Rmax_lub; lra.
  - apply Rmin_glb; lra.
  - apply Rmax_lub; lra.
Qed.

Lemma fold_boundsAddPoint_within (pts : list (Point2D xdouble)) x0 x1 y0 y1 :
  Forall (pointIn x0 x1 y0 y1) pts ->
  forall b, within b x0 x1 y0 y1 ->
            within (fold_left boundsAddPoint pts b) x0 x1 y0 y1.
Proof.
  induction 1 as [|p pts Hp _ IH]; intros b Hb; [exact Hb |].
  cbn [fold_left]. apply IH. now apply boundsAddPoint_within.
Qed.

Lemma boundsAddBoundary_points b l r :
  finitePoint l -> finitePoint r -> (exists a0 a1 c0 c1, encloses b a0 a1 c0 c1) ->
  boundsAddBoundary b (l, r) = boundsAddPoint (boundsAddPoint b l) r.
Proof.
  intros (lx & ly & ->) (rx & ry & ->)
         (a0 & a1 & c0 & c1 & bx0 & bx1 & by0 & by1 & -> & _).
  unfold boundsAddBoundary, boundsAddPoint.
  cbn [minX maxX minY maxY x y fst snd].
  rewrite !xd_std_min, !xd_std_max.
  now rewrite !Rmin_assoc, !Rmax_assoc.
Qed.

Lemma pointIn_finite x0 x1 y0 y1 p : pointIn x0 x1 y0 y1 p -> finitePoint p.
Proof. intros (px & py & -> & _). now exists px, py. Qed.

Lemma within_encloses_self b x0 x1 y0 y1 :
  within b x0 x1 y0 y1 -> exists a0 a1 c0 c1, encloses b a0 a1 c0 c1.
Proof.
  intros (bx0 & bx1 & by0 & by1 & -> & _).
  exists bx0, bx1, by0, by1, bx0, bx1, by0, by1. repeat split; lra.
Qed.

Lemma fold_boundsAddBoundary_within
    (bs : list (Point2D xdouble * Point2D xdouble)) x0 x1 y0 y1 :
  Forall (fun b => pointIn x0 x1 y0 y1 (fst b)
                   /\ pointIn x0 x1 y0 y1 (snd b)) bs ->
  forall b, within b x0 x1 y0 y1 ->
            within (fold_left boundsAddBoundary bs b) x0 x1 y0 y1.
Proof.
  induction 1 as [|[l r] bs [Hl Hr] _ IH]; intros b Hb; [exact Hb |].
  cbn [fst snd] in Hl, Hr. cbn [fold_left]. apply IH.
  rewrite boundsAddBoundary_points;
    eauto using pointIn_finite, within_encloses_self.
  now repeat apply boundsAddPoint_within.
Qed.

Lemma fold_boundsAddBoundary_covers
    (bs : list (Point2D xdouble * Point2D xdouble)) lx ly rx ry :
  Forall finitePair bs ->
  In (mkPoint2D (Fin lx) (Fin ly), mkPoint2D (Fin rx) (Fin ry)) bs ->
  forall b x0 x1 y0 y1,
    encloses b x0 x1 y0 y1 ->
    encloses (fold_left boundsAddBoundary bs b)
      (Rmin x0 (Rmin lx rx)) (Rmax x1 (Rmax lx rx))
      (Rmin y0 (Rmin ly ry)) (Rmax y1 (Rmax ly ry)).
Proof.
  induction 1 as [|[p q] bs [Hp Hq] Hrest IH]; intros Hin b x0 x1 y0 y1 Hb;
    [contradiction |].
  cbn [fst snd] in Hp, Hq. cbn [fold_left]. destruct Hin as [E | Hin].
  - injection E as -> ->.
    apply fold_boundsAddBoundary_encloses; [exact Hrest |].
    rewrite boundsAddBoundary_points; eauto.
    eapply encloses_weaken.
    + apply boundsAddPoint_encloses, boundsAddPoint_encloses. exact Hb.
    + rewrite Rmin_assoc. apply Rle_refl.
    + rewrite Rmax_assoc. apply Rle_refl.
    + rewrite Rmin_assoc. apply Rle_refl.
    + rewrite Rmax_assoc. apply Rle_refl.
  - destruct Hp as (px & py & ->). destruct Hq as (qx & qy & ->).
    eapply encloses_weaken.
    + apply IH; [exact Hin |].
      rewrite boundsAddBoundary_points; eauto; try (eexists _, _; reflexivity).
      apply boundsAddPoint_encloses, boundsAddPoint_encloses. exact Hb.
    + apply Rle_min_compat_r. eapply Rle_trans; apply Rmin_l.
    + apply Rle_max_compat_r. eapply Rle_trans; [| apply Rmax_l]. apply Rmax_l.
    + apply Rle_min_compat_r. eapply Rle_trans; apply Rmin_l.
    + apply Rle_max_compat_r. eapply Rle_trans; [| apply Rmax_l]. apply Rmax_l.
Qed.

Lemma within_encloses_exact b x0 x1 y0 y1 :
  within b x0 x1 y0 y1 -> encloses b x0 x1 y0 y1 ->
  b = mkBounds (Fin x0) (Fin x1) (Fin y0) (Fin y1).
Proof.
  intros (bx0 & bx1 & by0 & by1 & -> & H1 & H2 & H3 & H4)
         (cx0 & cx1 & cy0 & cy1 & E & G1 & G2 & G3 & G4).
  injection E as <- <- <- <-.
  f_equal; f_equal; lra.
Qed.

Lemma in_loopCounters (n i : Z) :
  (0 <= n)%Z -> (In i (loopCounters n) <-> (0 <= i <= n)%Z).
Proof.
  intros Hn. unfold loopCounters. rewrite in_map_iff. split.
  - intros (k & <- & Hk). apply in_seq in Hk. lia.
  - intros Hi. exists (Z.to_nat i). split; [lia |]. apply in_seq. lia.
Qed.

Lemma validPoint_in_box a d l n i :
  0 < a < 90 -> 0 < d -> 0 < l -> (0 < n)%Z -> (0 <= i <= n)%Z ->
  0 <= IZR i / IZR n * l <= l
  /\ 0 <= IZR i / IZR n * l / pitchR a d * circumferenceR d
     <= l * tan (angleRadR a).
Proof.
  intros Ha Hd Hl Hn Hi.
  pose proof (tan_angleRadR_pos Ha) as Ht.
  pose proof (circumferenceR_pos Hd) as Hc.
  assert (HnR : 0 < IZR n) by (now apply IZR_lt).
  assert (Hq : 0 <= IZR i / IZR n <= 1).
  { assert (0 <= IZR i) by (apply IZR_le; lia).
    assert (IZR i <= IZR n) by (apply IZR_le; lia).
    split.
    - apply Rmult_le_reg_r with (IZR n); [exact HnR |].
      replace (IZR i / IZR n * IZR n) with (IZR i) by (field; lra). lra.
    - apply Rmult_le_reg_r with (IZR n); [exact HnR |].
      replace (IZR i / IZR n * IZR n) with (IZR i) by (field; lra). lra. }
  replace (IZR i / IZR n * l / pitchR a d * circumferenceR d)
    with (IZR i / IZR n * (l * tan (angleRadR a)))
    by (unfold pitchR; field; repeat split; lra).
  assert (0 < l * tan (angleRadR a)) by nra.
  split; split; nra.
Qed.

(** The pair [CalculateBoundaries] pushes for a finite centre point. *)
Lemma CalculateBoundaries_finite_pairs (c : list (Point2D xdouble)) (w : R) :
  (2 <= length c)%nat ->
  CalculateBoundaries c (Fin w)
  = map (fun q => (mkPoint2D (x q) (XD.add (y q) (Fin (w / 2))),
                   mkPoint2D (x q) (XD.sub (y q) (Fin (w / 2))))) c.
Proof.
  intros Hlen. unfold CalculateBoundaries.
  destruct (Nat.ltb_spec (length c) 2) as [Hlt | _]; [lia |].
  xd_ops. rewrite xd_div_fin by (rewrite Q2R_2; lra). rewrite Q2R_2.
  reflexivity.
Qed.

Lemma validPoint_first l p c n : validPoint l p c n 0 = mkPoint2D (Fin 0) (Fin 0).
Proof. unfold validPoint. f_equal; f_equal; unfold Rdiv; ring. Qed.

Lemma validPoint_last a d l n :
  0 < a < 90 -> 0 < d -> (0 < n)%Z ->
  validPoint l (pitchR a d) (circumferenceR d) n n
  = mkPoint2D (Fin l) (Fin (l * tan (angleRadR a))).
Proof.
  intros Ha Hd Hn.
  pose proof (tan_angleRadR_pos Ha). pose proof (circumferenceR_pos Hd).
  assert (IZR n <> 0) by (apply not_0_IZR; lia).
  unfold validPoint, pitchR. f_equal; f_equal; field; repeat split; lra.
Qed.

Lemma CalculateBoundaries_valid a d l w h ppr :
  0 < a < 90 -> 0 < d -> 0 < l ->
  CalculateBoundaries
    (CalculateSpiralGroove (Fin a) (Fin d) (Fin l) (Fin w) (Fin h) ppr)
    (Fin w)
  = map (validPair l (pitchR a d) (circumferenceR d) w
           (grooveTotalPoints (Fin a) (Fin d) (Fin l) ppr))
        (loopCounters (grooveTotalPoints (Fin a) (Fin d) (Fin l) ppr)).
Proof.
  intros Ha Hd Hl.
  pose proof (grooveTotalPoints_ge_10 (Fin a) (Fin d) (Fin l) ppr) as Hn.
  rewrite CalculateBoundaries_finite_pairs
    by (rewrite CalculateSpiralGroove_length; lia).
  rewrite CalculateSpiralGroove_valid by assumption.
  rewrite map_map. apply map_ext. intros i. reflexivity.
Qed.

Lemma stored_points_in_box a d l w n :
  0 < a < 90 -> 0 < d -> 0 < l -> 0 < w -> (0 < n)%Z ->
  Forall (pointIn 0 l (boxLow d w) (boxHigh a d l w))
    (map (validPoint l (pitchR a d) (circumferenceR d) n) (loopCounters n))
  /\ Forall (fun b => pointIn 0 l (boxLow d w) (boxHigh a d l w) (fst b)
                      /\ pointIn 0 l (boxLow d w) (boxHigh a d l w) (snd b))
       (map (validPair l (pitchR a d) (circumferenceR d) w n) (loopCounters n))
  /\ Forall (pointIn 0 l (boxLow d w) (boxHigh a d l w))
       [ mkPoint2D (Fin 0) (Fin (- (d / 2)));
         mkPoint2D (Fin l) (Fin (- (d / 2)));
         mkPoint2D (Fin l) (Fin (d / 2));
         mkPoint2D (Fin 0) (Fin (d / 2));
         mkPoint2D (Fin 0) (Fin (- (d / 2))) ].
Proof.
  intros Ha Hd Hl Hw Hn.
  pose proof (tan_angleRadR_pos Ha) as Ht.
  assert (HY : 0 < l * tan (angleRadR a)) by nra.
  assert (Hy0w : boxLow d w <= - (w / 2)) by apply Rmin_l.
  assert (Hy0d : boxLow d w <= - (d / 2)) by apply Rmin_r.
  assert (Hy1w : l * tan (angleRadR a) + w / 2 <= boxHigh a d l w)
    by apply Rmax_l.
  assert (Hy1d : d / 2 <= boxHigh a d l w) by apply Rmax_r.
  assert (Hbox : forall i, In i (loopCounters n) ->
            0 <= IZR i / IZR n * l <= l
            /\ 0 <= IZR i / IZR n * l / pitchR a d * circumferenceR d
               <= l * tan (angleRadR a)).
  { intros i Hi. apply in_loopCounters in Hi; [| lia].
    now apply validPoint_in_box. }
  split; [| split].
  - apply Forall_forall. intros q Hq. apply in_map_iff in Hq.
    destruct Hq as (i & <- & Hi). destruct (Hbox i Hi) as [Hx Hy].
    eexists _, _. split; [reflexivity |]. lra.
  - apply Forall_forall. intros q Hq. apply in_map_iff in Hq.
    destruct Hq as (i & <- & Hi). destruct (Hbox i Hi) as [Hx Hy].
    unfold validPair. cbn [fst snd].
    split; (eexists _, _; split; [reflexivity |]); lra.
  - repeat constructor; (eexists _, _; split; [reflexivity |]); lra.
Qed.

(** Lines 170-198 on a validated run: the bounding box is the tool's
    length in [x]; in [y] it reaches down to the lower of the right
    boundary's start and the outline, and up to the higher of the left
    boundary's end and the outline. *)
Lemma geometryBounds_valid (win : MainWindow xdouble) (a d l w h : R) p0 tl :
  0 < a < 90 -> 0 < d -> 0 < l -> 0 < w ->
  CalculateSpiralGroove (Fin a) (Fin d) (Fin l) (Fin w) (Fin h)
    defaultPointsPerRevolution = p0 :: tl ->
  geometryBounds p0 (storedGeometry win (Fin a) (Fin d) (Fin l) (Fin w) (Fin h))
  = mkBounds (Fin 0) (Fin l) (Fin (boxLow d w)) (Fin (boxHigh a d l w)).
Proof.
  intros Ha Hd Hl Hw Ec.
  pose proof (grooveTotalPoints_ge_10 (Fin a) (Fin d) (Fin l)
                defaultPointsPerRevolution) as Hn.
  unfold geometryBounds, storedGeometry.
  cbn [m_centerPoints m_boundaries m_toolOutline].
  rewrite CalculateBoundaries_valid by assumption.
  rewrite xd_CalculateToolOutline.
  rewrite Ec. rewrite <- Ec.
  rewrite (CalculateSpiralGroove_valid (Fin w) (Fin h)
             defaultPointsPerRevolution Ha Hd Hl) in *.
  set (n := grooveTotalPoints (Fin a) (Fin d) (Fin l)
              defaultPointsPerRevolution) in *.
  assert (Hn0 : (0 < n)%Z) by lia.
  destruct (stored_points_in_box Ha Hd Hl Hw Hn0) as (Hcin & Hbin & Hoin).
  set (vp := validPoint l (pitchR a d) (circumferenceR d) n) in *.
  set (vq := validPair l (pitchR a d) (circumferenceR d) w n) in *.
  set (outline := [_; _; _; _; _]) in *.
  assert (Hvp0 : vp 0%Z = mkPoint2D (Fin 0) (Fin 0))
    by apply validPoint_first.
  assert (Hvpn : vp n = mkPoint2D (Fin l) (Fin (l * tan (angleRadR a))))
    by (now apply validPoint_last).
  assert (Hp0 : p0 = vp 0%Z).
  { unfold loopCounters in Ec. cbn [seq map] in Ec. now injection Ec as <- _. }
  subst p0. rewrite Hvp0. cbn [x y].
  set (Y := l * tan (angleRadR a)) in *.
  assert (Hstart : within (mkBounds (Fin 0) (Fin 0) (Fin 0) (Fin 0))
                     0 l (boxLow d w) (boxHigh a d l w)).
  { assert (H0 : In (vp 0%Z) (map vp (loopCounters n))).
    { apply in_map, in_loopCounters; lia. }
    rewrite Forall_forall in Hcin. destruct (Hcin _ H0) as (px & py & E & Hx & Hy).
    rewrite Hvp0 in E. injection E as <- <-.
    eexists _, _, _, _. split; [reflexivity |]. lra. }
  pose proof (fold_boundsAddPoint_within Hoin
                (fold_boundsAddBoundary_within Hbin
                   (fold_boundsAddPoint_within Hcin Hstart))) as Hwithin.
  assert (Hstart' : encloses (mkBounds (Fin 0) (Fin 0) (Fin 0) (Fin 0))
                      0 0 0 0).
  { eexists _, _, _, _. split; [reflexivity |]. lra. }
  assert (Hcfin : Forall finitePoint (map vp (loopCounters n))).
  { eapply Forall_impl; [| exact Hcin]. intros q. apply pointIn_finite. }
  assert (Hbfin : Forall finitePair (map vq (loopCounters n))).
  { eapply Forall_impl; [| exact Hbin]. intros q [H1 H2].
    split; eapply pointIn_finite; eassumption. }
  assert (Hofin : Forall finitePoint outline).
  { eapply Forall_impl; [| exact Hoin]. intros q. apply pointIn_finite. }
  pose proof (fold_boundsAddPoint_encloses Hcfin Hstart') as E1.
  assert (Hlast : In (mkPoint2D (Fin l) (Fin (Y + w / 2)),
                      mkPoint2D (Fin l) (Fin (Y + - (w / 2))))
                    (map vq (loopCounters n))).
  { apply in_map_iff. exists n. split; [| apply in_loopCounters; lia].
    pose proof Hvpn as Hv. unfold vp, validPoint in Hv. injection Hv as Hx Hy.
    unfold vq, validPair. now rewrite Hy, Hx. }
  assert (Hfirst : In (mkPoint2D (Fin 0) (Fin (0 + w / 2)),
                       mkPoint2D (Fin 0) (Fin (0 + - (w / 2))))
                     (map vq (loopCounters n))).
  { apply in_map_iff. exists 0%Z. split; [| apply in_loopCounters; lia].
    pose proof Hvp0 as Hv. unfold vp, validPoint in Hv. injection Hv as Hx Hy.
    unfold vq, validPair. now rewrite Hy, Hx. }
  pose proof (fold_boundsAddBoundary_covers _ _ _ _ Hbfin Hlast E1) as E2.
  pose proof (fold_boundsAddBoundary_covers _ _ _ _ Hbfin Hfirst E1) as E3.
  pose proof (fold_boundsAddPoint_covers 0 (- (d / 2)) Hofin
                (or_introl eq_refl) E2) as E4.
  pose proof (fold_boundsAddPoint_covers l (d / 2) Hofin
                (or_intror (or_intror (or_introl eq_refl))) E3) as E5.
  apply within_encloses_exact; [exact Hwithin |].
  destruct E4 as (bx0 & bx1 & by0 & by1 & E & A1 & A2 & A3 & A4).
  destruct E5 as (cx0 & cx1 & cy0 & cy1 & E' & B1 & B2 & B3 & B4).
  rewrite E in E'. injection E' as <- <- <- <-.
  exists bx0, bx1, by0, by1. split; [exact E |].
  assert (F1 : bx0 <= 0) by (eapply Rle_trans; [exact A1 | apply Rmin_r]).
  assert (F2 : l <= bx1) by (eapply Rle_trans; [apply Rmax_r | exact B2]).
  assert (F3 : by0 <= - (d / 2))
    by (eapply Rle_trans; [exact A3 | apply Rmin_r]).
  assert (F4 : by0 <= - (w / 2)).
  { eapply Rle_trans; [exact B3 |]. eapply Rle_trans; [apply Rmin_l |].
    eapply Rle_trans; [apply Rmin_r |]. eapply Rle_trans; [apply Rmin_r |].
    lra. }
  assert (F5 : Y + w / 2 <= by1).
  { eapply Rle_trans; [| exact A4]. eapply Rle_trans; [| apply Rmax_l].
    eapply Rle_trans; [| apply Rmax_r]. apply Rmax_l. }
  assert (F6 : d / 2 <= by1)
    by (eapply Rle_trans; [apply Rmax_r | exact B4]).
  repeat split; try assumption.
  - unfold boxLow. now apply Rmin_glb.
  - unfold boxHigh. now apply Rmax_lub.
Qed.

Lemma rejects_valid (a d l w h : R) :
  0 < a < 90 -> 0 < d -> 0 < l -> 0 < w -> 0 < h ->
  rejects (Fin a) (Fin d) (Fin l) (Fin w) (Fin h) = false.
Proof. intros. apply validation_test. repeat split; lra. Qed.

Lemma boxHeight_pos a d l w :
  0 < a < 90 -> 0 < d -> 0 < l -> 0 < w ->
  0 < boxHigh a d l w - boxLow d w.
Proof.
  intros Ha Hd Hl Hw.
  pose proof (Rmin_r (- (w / 2)) (- (d / 2))).
  pose proof (Rmax_r (l * tan (angleRadR a) + w / 2) (d / 2)).
  unfold boxHigh, boxLow. lra.
Qed.

Lemma GenerateSpiral_valid_window (win : MainWindow xdouble) (a d l w h : R)
    (rect : RECT) :
  0 < a < 90 -> 0 < d -> 0 < l -> 0 < w -> 0 < h ->
  let cw := IZR (clientWidth rect) in
  let ch := IZR (clientHeight rect) in
  let s := validScale a d l w rect in
  GenerateSpiral win (Fin a) (Fin d) (Fin l) (Fin w) (Fin h) rect
  = (mkMainWindow
       (CalculateSpiralGroove (Fin a) (Fin d) (Fin l) (Fin w) (Fin h)
          defaultPointsPerRevolution)
       (CalculateBoundaries
          (CalculateSpiralGroove (Fin a) (Fin d) (Fin l) (Fin w) (Fin h)
             defaultPointsPerRevolution) (Fin w))
       (CalculateToolOutline (Fin d) (Fin l))
       (Fin s) (Fin s)
       (Fin (250 + (cw - (l - 0) * s) / 2 - 0 * s))
       (Fin (10 + (ch - (boxHigh a d l w - boxLow d w) * s) / 2
             - boxLow d w * s)),
     [SetWindowText_Info; InvalidateRect_All]).
Proof.
  intros Ha Hd Hl Hw Hh cw ch s.
  destruct (GenerateSpiral_accepted win (Fin a) (Fin d) (Fin l) (Fin w) (Fin h)
              rect (rejects_valid Ha Hd Hl Hw Hh)) as (p0 & tl & Ec & ->).
  rewrite (geometryBounds_valid win h Ha Hd Hl Hw Ec).
  assert (Hx : 0 < l - 0) by lra.
  rewrite (fitView_recomputes rect _ Hx (boxHeight_pos Ha Hd Hl Hw)).
  reflexivity.
Qed.




(** ** Witnesses of the further properties: the example scenario (30
    degrees, diameter 10, length 50, width 2, height 1) in a client area
    of 1184 by 761. *)

Lemma example_valid :
  0 < 30 < 90 /\ 0 < 10 /\ 0 < 50 /\ 0 < 2 /\ 0 < 1.
Proof. lra. Qed.

Lemma example_accepted :
  snd (GenerateSpiral MainWindow_new (Fin 30) (Fin 10) (Fin 50) (Fin 2)
         (Fin 1) (mkRECT 0 0 1184 761))
  = [SetWindowText_Info; InvalidateRect_All].
Proof.
  destruct example_valid as (H1 & H2 & H3 & H4 & H5).
  now rewrite (GenerateSpiral_valid_window MainWindow_new
                 (mkRECT 0 0 1184 761) H1 H2 H3 H4 H5).
Qed.

(** X5, witness. *)
Lemma DrawGraphics_after_GenerateSpiral_witness :
  let result :=
    GenerateSpiral MainWindow_new (Fin 30) (Fin 10) (Fin 50) (Fin 2) (Fin 1)
      (mkRECT 0 0 1184 761) in
  snd result = [SetWindowText_Info; InvalidateRect_All]
  /\ exists outline left right center : list (xdouble * xdouble),
       DrawGraphics (fun v : xdouble => v) (fst result)
       = [SetSmoothingMode_AntiAlias; Clear_White;
          DrawLines outlinePen outline; DrawLines leftPen left;
          DrawLines rightPen right; DrawLines centerPen center]
       /\ length outline = 5%nat
       /\ length left = length center
       /\ length right = length center
       /\ length center = length (m_centerPoints (fst result))
       /\ (11 <= length center)%nat.
Proof.
  intros result. split; [exact example_accepted |].
  exact (DrawGraphics_after_GenerateSpiral (fun v : xdouble => v)
           MainWindow_new (Fin 30) (Fin 10) (Fin 50) (Fin 2) (Fin 1)
           (mkRECT 0 0 1184 761) example_accepted).
Defined.

(** X8, witness: two points through the echoing AutoCAD. *)
Lemma OptimizePointsWithAutoCAD_echo_witness :
  let points := [mkPoint2D (Fin 0) (Fin 0); mkPoint2D (Fin 50) (Fin 28)] in
  sm_coordinates echoReplies (flattenPoints points)
  = Some (0%Z, flattenPoints points)
  /\ exists ok : bool,
       OptimizePointsWithAutoCAD echoReplies points = Some (ok, points)
       /\ (ok = false <->
           (2 <= length points)%nat
           /\ (sm_coInitializeEx_ok echoReplies = false
               \/ sm_throws echoReplies = true)).
Proof.
  intros points. split; [reflexivity |].
  exact (OptimizePointsWithAutoCAD_echo echoReplies points eq_refl).
Defined.



Lemma zero_le_zero : 0 <= 0.
Proof. lra. Qed.



Lemma example_client_width : 0 < IZR (clientWidth (mkRECT 0 0 1184 761)).
Proof. change (0 < 934). lra. Qed.

Lemma example_client_height : 0 < IZR (clientHeight (mkRECT 0 0 1184 761)).
Proof. change (0 < 741). lra. Qed.


